(** * Slide-rule cursor precision calculator

    A shallow embedding of [reference/precision-analysis/scale_precision_calculator.py]
    and the properties of its precision lookup.

    Numbers.  The Python code works on [int] and [float] values that it
    compares, hands to [math.log10] and formats.  A finite number is embedded
    as the rational it is equal to ([Q]); a decimal written in this file
    stands for the same literal of the source.  Comparisons are the exact
    ones, as Python's are.  Two operations of the code round, and both are
    embedded with their rounding: [math.log10], whose binary64 result the code
    floors ([math_floor_log10]), and the conversion to binary64 of a position
    that is formatted ([binary64]).  The floats that are no rationals, -0.0,
    the infinities and NaN, can be handed in as positions; they are values of
    the type [number]. *)

From Stdlib Require Import ZArith QArith Qpower Qabs Qround List Bool Lia.
From Stdlib Require Import Permutation Sorted String Ascii.
From Stdlib Require Import Lqa Reals Qreals Lra.
Import ListNotations.

Local Open Scope Q_scope.

(** ** Python results: a returned value or a raised exception *)

Inductive exn : Type :=
| ValueError
| OverflowError.

Inductive result (A : Type) : Type :=
| Returns (a : A)
| Raises (e : exn).

Arguments Returns {A} a.
Arguments Raises {A} e.

Definition bind {A B : Type} (r : result A) (k : A -> result B) : result B :=
  match r with
  | Returns a => k a
  | Raises e => Raises e
  end.

Notation "x <- r ;; k" := (bind r (fun x => k))
  (at level 61, r at next level, right associativity).

(** ** Numeric primitives *)

Module Numeric.

(** [a < b] and [a >= b] on Python numbers. *)
Definition Qltb (a b : Q) : bool := negb (Qle_bool b a).
Definition Qgeb (a b : Q) : bool := Qle_bool b a.

(** Least [k >= k0] such that [m <= n * 10 ^ (k - k0)], searching upwards. *)
Fixpoint digits_below (fuel : nat) (n m k : Z) : Z :=
  match fuel with
  | O => k
  | S fuel' => if (m <=? n)%Z then k else digits_below fuel' (n * 10) m (k + 1)
  end.

(** Greatest [k >= k0] such that [m * 10 ^ (k - k0) <= n], searching upwards. *)
Fixpoint digits_above (fuel : nat) (n m k : Z) : Z :=
  match fuel with
  | O => k
  | S fuel' => if (n <? m * 10)%Z then k else digits_above fuel' n (m * 10) (k + 1)
  end.

(** The integer [d] with [10 ^ d <= x < 10 ^ (d + 1)], for [x > 0]:
    the exact value of [floor (log10 x)]. *)
Definition floor_log10 (x : Q) : Z :=
  let n := Qnum x in
  let m := Zpos (Qden x) in
  if (m <=? n)%Z
  then digits_above (Z.to_nat (Z.log2 n)) n m 0
  else (- digits_below (S (Z.to_nat (Z.log2 m))) n m 0)%Z.

(** *** The rounding of [math.log10]

    [math.log10 x] is the binary64 value nearest to the logarithm of [x]
    (ties to even), and [math.floor] floors that value.  The integer [k] is a
    binary64 value; when the logarithm of [x] is below [k] by at most half the
    distance [h] from [k] to the binary64 value below it,
    [k - h <= log10 x < k], the value returned is [k] itself and its floor is
    [k], although [x < 10 ^ k].  This happens from
    [10 ^ (k - h) = 10 ^ k * (1 - h * ln 10 + ...)] upwards; the higher terms,
    below [10 ^ -26] of the value at every decade of binary64, are left out.
    The C library is taken to round correctly; it is allowed an error of one
    unit in the last place, which can move a threshold by one binary64 value
    (below 0.1, 0.01 and 0.001, the thresholds that the clamp to 5 does not
    hide, the thresholds are as stated for a library of that accuracy). *)

(** [ln 10] to 19 digits. *)
Definition ln_10 : Q := 2302585092994045684 # 1000000000000000000.

(** Half the distance from the integer [k] to the binary64 value below it.
    A binary64 value has 53 bits: below [k >= 1] the spacing is
    [2 ^ (e - 52)] with [2 ^ e < k < 2 ^ (e + 1)], and half of that at
    [k = 2 ^ e]; below [k <= -1] it is [2 ^ (e - 52)] with
    [2 ^ e <= - k < 2 ^ (e + 1)].  Below 0 the spacing is [2 ^ -1074]; no
    binary64 argument below 1 has its logarithm that near to 0 (it is at
    most [log10 (1 - 2 ^ -53)], about [- 2 ^ -54]), so 0 stands for it. *)
Definition half_spacing_below (k : Z) : Q :=
  match k with
  | Z0 => 0
  | Zpos _ =>
      if (k =? 2 ^ Z.log2 k)%Z then 2 ^ (Z.log2 k - 54) else 2 ^ (Z.log2 k - 53)
  | Zneg _ => 2 ^ (Z.log2 (- k) - 53)
  end.

(** The arguments in [(rounding_threshold k, 10 ^ k)] have a logarithm that
    [math.log10] rounds up to [k]. *)
Definition rounding_threshold (k : Z) : Q :=
  10 ^ k * (1 - ln_10 * half_spacing_below k).

(** The floor of the binary64 logarithm of [x > 0]: the decade of [x], or the
    next one when [x] is above the threshold of that next decade. *)
Definition rounded_floor_log10 (x : Q) : Z :=
  let d := floor_log10 x in
  if Qltb (rounding_threshold (d + 1)) x then (d + 1)%Z else d.

(** [math.floor (math.log10 x)]: [math.log10] raises [ValueError] outside
    its domain [x > 0]. *)
Definition math_floor_log10 (x : Q) : result Z :=
  if Qle_bool x 0 then Raises ValueError else Returns (rounded_floor_log10 x).

End Numeric.

Import Numeric.

(** ** Fixed-point formatting: Python's [format (x, ".nf")]

    The shortest sign, the integer digits, and exactly [n] fractional digits
    of [x] rounded to a multiple of [10 ^ -n], ties to even.  No point is
    written when [n = 0]. *)

Module Format.

Local Open Scope string_scope.

Definition digit (d : Z) : ascii :=
  ascii_of_nat (48 + Z.to_nat d).

(** Nearest integer, ties to the even one. *)
Definition round_half_even (x : Q) : Z :=
  let f := Qfloor x in
  let r := (x - inject_Z f)%Q in
  match Qcompare r (1 # 2) with
  | Lt => f
  | Gt => (f + 1)%Z
  | Eq => if Z.even f then f else (f + 1)%Z
  end.

(** The last [n] decimal digits of [v], written in front of [acc]. *)
Fixpoint frac_digits (n : nat) (v : Z) (acc : string) : string :=
  match n with
  | O => acc
  | S n' => frac_digits n' (v / 10) (String (digit (v mod 10)) acc)
  end.

(** All decimal digits of [v >= 0] (at least one), written in front of [acc]. *)
Fixpoint int_digits (fuel : nat) (v : Z) (acc : string) : string :=
  match fuel with
  | O => String (digit (v mod 10)) acc
  | S fuel' =>
      if (v <? 10)%Z then String (digit (v mod 10)) acc
      else int_digits fuel' (v / 10) (String (digit (v mod 10)) acc)
  end.

Definition format_fixed (x : Q) (n : nat) : string :=
  let scale := (10 ^ Z.of_nat n)%Z in
  let scaled := round_half_even (Qabs x * inject_Z scale) in
  let sign := if Qltb x 0 then "-" else "" in
  let ipart := (scaled / scale)%Z in
  let fpart := (scaled mod scale)%Z in
  sign ++ int_digits (Z.to_nat (Z.log2 ipart)) ipart
            (match n with
             | O => ""
             | S _ => String "." (frac_digits n fpart "")
             end).

(** The number that a text of decimal digits denotes, read after [acc]. *)
Definition digit_value (c : ascii) : Z := (Z.of_nat (nat_of_ascii c) - 48)%Z.

Fixpoint digits_value (acc : Z) (s : string) : Z :=
  match s with
  | EmptyString => acc
  | String c s' => digits_value (acc * 10 + digit_value c) s'
  end.

(** The text after the first ["."] of [s], if there is one. *)
Fixpoint after_point (s : string) : option string :=
  match s with
  | EmptyString => None
  | String c s' => if Ascii.eqb c "." then Some s' else after_point s'
  end.

End Format.

Import Format.

(** ** The binary64 value of a number: Python's [float (x)]

    A binary64 value is [m * 2 ^ q] with an integer [m] of at most 53 bits
    and [q >= -1074], of magnitude below [2 ^ 1024].  The conversion takes the
    nearest such value, ties to the even [m]; it is how an [int] is turned
    into a [float] before it is formatted, and leaves a [float] as it is. *)

Module Binary64.

(** The integer [e] with [2 ^ e <= a < 2 ^ (e + 1)], for [a > 0]. *)
Definition floor_log2 (a : Q) : Z :=
  let e := (Z.log2 (Qnum a) - Z.log2 (Zpos (Qden a)))%Z in
  if Qle_bool (2 ^ e) a then e else (e - 1)%Z.

(** The exponent of the last of the 53 bits of [a > 0]; -1074 for the
    subnormal values. *)
Definition last_bit (a : Q) : Z := Z.max (floor_log2 a - 52) (-1074).

Definition binary64 (x : Q) : Q :=
  if Qeq_bool x 0 then 0
  else
    let a := Qabs x in
    let q := last_bit a in
    let m := round_half_even (a / 2 ^ q) in
    if Qltb x 0 then - (inject_Z m * 2 ^ q) else inject_Z m * 2 ^ q.

(** [float (x)]: a number that rounds to [2 ^ 1024] or beyond raises
    [OverflowError] ("int too large to convert to float"). *)
Definition float (x : Q) : result Q :=
  if Qle_bool (2 ^ 1024) (Qabs (binary64 x)) then Raises OverflowError
  else Returns (binary64 x).

End Binary64.

Import Binary64.

(** ** The scale configuration and the calculator *)

(** One entry of [scale_definition['subsections']]: the dict
    [{'beginsub': b, 'intervals': [primary, secondary, tertiary, quaternary]}],
    where an interval may be [None]. *)
Record subsection : Type := Subsection {
  beginsub : Q;
  intervals : list (option Q)
}.

(** The dict handed to the constructor; ['xfactor'] is optional. *)
Record scale_definition : Type := ScaleDefinition {
  sd_subsections : list subsection;
  sd_beginscale : Q;
  sd_endscale : Q;
  sd_xfactor : option Q
}.

(** The attributes of a [ScalePrecisionCalculator] object. *)
Record ScalePrecisionCalculator : Type := Calculator {
  subsections : list subsection;
  beginscale : Q;
  endscale : Q;
  xfactor : Q
}.

(** [list.sort (key=lambda s: s['beginsub'])]: Python's sort is stable, so
    its result is the one of a stable insertion sort on the keys. *)
Fixpoint insert_by_beginsub (s : subsection) (l : list subsection) : list subsection :=
  match l with
  | [] => [s]
  | t :: l' =>
      if Qle_bool (beginsub s) (beginsub t) then s :: l
      else t :: insert_by_beginsub s l'
  end.

Definition sort_by_beginsub (l : list subsection) : list subsection :=
  fold_right insert_by_beginsub [] l.

(** The constructor: the three attributes read from the dict, ['xfactor']
    with its default 100, and the sub-ranges sorted by [beginsub]. *)
Definition __init__ (scale_definition : scale_definition) : ScalePrecisionCalculator :=
  {| subsections := sort_by_beginsub (sd_subsections scale_definition);
     beginscale := sd_beginscale scale_definition;
     endscale := sd_endscale scale_definition;
     xfactor := match sd_xfactor scale_definition with
                | Some x => x
                | None => 100
                end |}.

(** The [for] loop of [_find_active_subsection]: [active] is the loop's
    [active_subsection]; the [else] branch is the [break]. *)
Fixpoint find_active_loop (position : Q) (subs : list subsection)
    (active : option subsection) : option subsection :=
  match subs with
  | [] => active
  | s :: rest =>
      if Qgeb position (beginsub s)
      then find_active_loop position rest (Some s)
      else active
  end.

Definition _find_active_subsection (self : ScalePrecisionCalculator)
    (position : Q) : option subsection :=
  find_active_loop position (subsections self) None.

(** The [for] loop of [_get_smallest_interval] over [reversed (intervals)]. *)
Fixpoint first_not_none (l : list (option Q)) : option Q :=
  match l with
  | [] => None
  | Some interval :: _ => Some interval
  | None :: l' => first_not_none l'
  end.

(** [_get_smallest_interval] and [_interval_to_decimal_places] do not use
    [self]; the embedding leaves that parameter out. *)
Definition _get_smallest_interval (s : subsection) : option Q :=
  first_not_none (rev (intervals s)).

(** 1 for an interval of at least 1; otherwise the digits of the interval's
    decade plus one, clamped to [1, 5]. *)
Definition _interval_to_decimal_places (interval : Q) : result Z :=
  if Qgeb interval 1 then Returns 1%Z
  else
    d <- math_floor_log10 interval ;;
    let decimal_places := (- d)%Z in
    let decimal_places := (decimal_places + 1)%Z in
    Returns (Z.min (Z.max decimal_places 1) 5).

(** The bounds check, then the three steps; each early exit is the
    default 2. *)
Definition get_decimal_places (self : ScalePrecisionCalculator)
    (position : Q) : result Z :=
  if Qltb position (beginscale self) || Qltb (endscale self) position
  then Returns 2%Z
  else
    match _find_active_subsection self position with
    | None => Returns 2%Z
    | Some active_subsection =>
        match _get_smallest_interval active_subsection with
        | None => Returns 2%Z
        | Some smallest_interval =>
            _interval_to_decimal_places smallest_interval
        end
    end.

(** ** Positions that are not rationals

    A position is any Python number: an [int] or a finite [float] other than
    -0.0, which is the rational it equals, or one of the floats -0.0,
    [inf], [-inf] and [nan]. *)

Inductive number : Type :=
| Finite (q : Q)
| NegativeZero
| Infinity (negative : bool)
| NaN.

(** The lookup reads the position only through three comparisons with
    numbers of the configuration.  This is the same code with the position
    any float: -0.0 compares as 0, an infinity is beyond every number, and
    every comparison with [nan] is false. *)

Module Position.

(** [position < bound], [position > bound] and [position >= bound]. *)
Definition lt (position : number) (bound : Q) : bool :=
  match position with
  | Finite q => Qltb q bound
  | NegativeZero => Qltb 0 bound
  | Infinity negative => negative
  | NaN => false
  end.

Definition gt (position : number) (bound : Q) : bool :=
  match position with
  | Finite q => Qltb bound q
  | NegativeZero => Qltb bound 0
  | Infinity negative => negb negative
  | NaN => false
  end.

Definition ge (position : number) (bound : Q) : bool :=
  match position with
  | Finite q => Qgeb q bound
  | NegativeZero => Qgeb 0 bound
  | Infinity negative => negb negative
  | NaN => false
  end.

Fixpoint find_active_loop (position : number) (subs : list subsection)
    (active : option subsection) : option subsection :=
  match subs with
  | [] => active
  | s :: rest =>
      if ge position (beginsub s)
      then find_active_loop position rest (Some s)
      else active
  end.

Definition _find_active_subsection (self : ScalePrecisionCalculator)
    (position : number) : option subsection :=
  find_active_loop position (subsections self) None.

Definition get_decimal_places (self : ScalePrecisionCalculator)
    (position : number) : result Z :=
  if lt position (beginscale self) || gt position (endscale self)
  then Returns 2%Z
  else
    match _find_active_subsection self position with
    | None => Returns 2%Z
    | Some active_subsection =>
        match _get_smallest_interval active_subsection with
        | None => Returns 2%Z
        | Some smallest_interval =>
            _interval_to_decimal_places smallest_interval
        end
    end.

End Position.

(** [format (position, ".nf")], the formatting of the f-string: an [int] is
    converted to binary64 first; -0.0 keeps its sign; an infinity and [nan]
    are written by name, without digits. *)
Definition format_position (position : number) (n : nat) : result string :=
  match position with
  | Finite q =>
      x <- float q ;;
      Returns (format_fixed x n)
  | NegativeZero => Returns ("-" ++ format_fixed 0 n)%string
  | Infinity negative => Returns (if negative then "-inf" else "inf")%string
  | NaN => Returns "nan"%string
  end.

(** [f"{position:.{decimal_places}f}"]. *)
Definition get_formatted_value (self : ScalePrecisionCalculator)
    (position : number) : result string :=
  decimal_places <- Position.get_decimal_places self position ;;
  format_position position (Z.to_nat decimal_places).

(** ** The three sample scales *)

Module Scales.

Definition sub (b : Q) (i1 i2 i3 i4 : option Q) : subsection :=
  {| beginsub := b; intervals := [i1; i2; i3; i4] |}.

Definition c_scale_definition : scale_definition :=
  {| sd_beginscale := 1;
     sd_endscale := 10;
     sd_xfactor := Some 100;
     sd_subsections :=
       [ sub 1  (Some 1)  (Some 0.1) (Some 0.05) (Some 0.01);
         sub 2  (Some 1)  (Some 0.5) (Some 0.1)  (Some 0.02);
         sub 4  (Some 1)  (Some 0.5) (Some 0.1)  (Some 0.05);
         sub 10 (Some 10) (Some 1)   (Some 0.5)  (Some 0.1);
         sub 20 (Some 10) (Some 5)   (Some 1)    (Some 0.2);
         sub 40 (Some 10) (Some 5)   (Some 1)    (Some 0.5) ] |}.

Definition create_c_scale_calculator : ScalePrecisionCalculator :=
  __init__ c_scale_definition.

Definition ll00_scale_definition : scale_definition :=
  {| sd_beginscale := 0.990;
     sd_endscale := 0.999;
     sd_xfactor := Some 100000;
     sd_subsections :=
       [ sub 0.990 (Some 0.001)  (Some 0.0005) (Some 0.0001)  (Some 0.00005);
         sub 0.995 (Some 0.001)  (Some 0.0005) (Some 0.0001)  (Some 0.00002);
         sub 0.998 (Some 0.0005) (Some 0.0001) (Some 0.00005) (Some 0.00001) ] |}.

Definition create_ll00_scale_calculator : ScalePrecisionCalculator :=
  __init__ ll00_scale_definition.

Definition k_scale_definition : scale_definition :=
  {| sd_beginscale := 1;
     sd_endscale := 1000;
     sd_xfactor := Some 100;
     sd_subsections :=
       [ sub 1    (Some 1)    (Some 0.5) (Some 0.1) (Some 0.05);
         sub 3    (Some 1)    None       (Some 0.5) (Some 0.1);
         sub 6    (Some 1)    None       None       (Some 0.2);
         sub 10   (Some 10)   (Some 5)   (Some 1)   (Some 0.5);
         sub 30   (Some 10)   None       (Some 5)   (Some 1);
         sub 60   (Some 10)   None       None       (Some 2);
         sub 100  (Some 100)  (Some 50)  (Some 10)  (Some 5);
         sub 300  (Some 100)  None       (Some 50)  (Some 10);
         sub 600  (Some 100)  None       None       (Some 20);
         sub 1000 (Some 1000) (Some 500) (Some 100) (Some 50) ] |}.

Definition create_k_scale_calculator : ScalePrecisionCalculator :=
  __init__ k_scale_definition.

End Scales.

Import Scales.

(** ** Vocabulary of the properties *)

(** The decimal logarithm of a real number, and [d] being the floor of [r]. *)
Definition log10 (x : R) : R := (ln x / ln 10)%R.


Definition le_beginsub (a b : subsection) : Prop := beginsub a <= beginsub b.
Definition lt_beginsub (a b : subsection) : Prop := beginsub a < beginsub b.

(** No two sub-ranges of the list start at the same value. *)
Definition distinct_beginsub (l : list subsection) : Prop :=
  ForallOrdPairs (fun a b => ~ beginsub a == beginsub b) l.

(** The last entry of [l] whose [beginsub] is at most [position]. *)
Definition last_qualifying (position : Q) (l : list subsection) : option subsection :=
  hd_error (rev (filter (fun s => Qle_bool (beginsub s) position) l)).

(** The four sub-ranges of the C scale that start at 1, 2, 4 and 10. *)
Definition four_subsection_definition : scale_definition :=
  {| sd_beginscale := 1;
     sd_endscale := 10;
     sd_xfactor := None;
     sd_subsections := firstn 4 (sd_subsections c_scale_definition) |}.

Definition all_absent (s : subsection) : Prop :=
  Forall (fun i => i = None) (intervals s).

(** The degenerate queries: a position outside the scale, a position inside
    the scale that precedes every sub-range, and a position whose active
    sub-range has no interval at all. *)
Inductive degenerate (self : ScalePrecisionCalculator) (position : Q) : Prop :=
| out_of_bounds :
    position < beginscale self \/ endscale self < position ->
    degenerate self position
| no_subsection :
    beginscale self <= position -> position <= endscale self ->
    Forall (fun s => position < beginsub s) (subsections self) ->
    degenerate self position
| no_interval (s : subsection) :
    _find_active_subsection self position = Some s ->
    all_absent s ->
    degenerate self position.

(** Every configured interval is strictly positive. *)
Definition positive_intervals (l : list subsection) : Prop :=
  Forall (fun s => Forall (fun i => forall v, i = Some v -> 0 < v) (intervals s)) l.

(** A scale on [1, 10] whose second sub-range, from 5 on, has no interval. *)
Definition defective_definition : scale_definition :=
  {| sd_beginscale := 1;
     sd_endscale := 10;
     sd_xfactor := None;
     sd_subsections :=
       [ sub 5 None None None None;
         sub 2 (Some 1) (Some 0.5) (Some 0.1) (Some 0.02) ] |}.

(** The configuration [definition] with its sub-ranges listed as [l]. *)
Definition with_subsections (definition : scale_definition) (l : list subsection) :
    scale_definition :=
  {| sd_subsections := l;
     sd_beginscale := sd_beginscale definition;
     sd_endscale := sd_endscale definition;
     sd_xfactor := sd_xfactor definition |}.

(** The constructor's effect on its argument: [self.subsections] is the very
    list held by the dict, and [sort] reorders that list in place.  The pair
    is the new object and the dict as the caller sees it afterwards. *)
Definition init_in_place (definition : scale_definition) :
    ScalePrecisionCalculator * scale_definition :=
  let self := __init__ definition in
  (self, with_subsections definition (subsections self)).

(** The configuration without the sub-ranges that start beyond the end of the
    scale. *)
Definition within_scale (definition : scale_definition) : scale_definition :=
  with_subsections definition
    (filter (fun s => Qle_bool (beginsub s) (sd_endscale definition))
       (sd_subsections definition)).

(** The tiers that are present never grow from one tier to a later one. *)
Definition descending_tiers (l : list (option Q)) : Prop :=
  StronglySorted (fun a b => forall v w, a = Some v -> b = Some w -> w <= v) l.

(** ** Sanity checks of the embedding on the demo's inputs *)

Example floor_log10_examples :
  map floor_log10 [0.1; 0.05; 0.01; 0.02; 0.5; 0.00001; 0.000001; 1; 9.99; 10; 123456; 0.099]
  = [-1; -2; -2; -2; -1; -5; -6; 0; 0; 1; 5; -2]%Z.
Proof. reflexivity. Qed.

Example c_scale_demo :
  map (get_decimal_places create_c_scale_calculator) [1; 1.5; 2; 3.14159; 5; 7.5; 9]
  = map Returns [3; 3; 3; 3; 3; 3; 3]%Z.
Proof. reflexivity. Qed.

Example k_scale_demo :
  map (fun position => get_formatted_value create_k_scale_calculator (Finite position))
    [1; 5; 10; 50; 100; 500; 1000]
  = map Returns ["1.000"; "5.00"; "10.00"; "50.0"; "100.0"; "500.0"; "1000.0"]%string.
Proof. vm_compute. reflexivity. Qed.

Example binary64_examples :
  binary64 0 == 0 /\ binary64 1 == 1 /\ binary64 (-2.5) == -2.5 /\
  binary64 9007199254740993 == 9007199254740992 /\
  binary64 2.675 == 6023564501608038 # 2 ^ 51 /\
  binary64 (1 # 2 ^ 1075) == 0 /\
  binary64 (3 # 2 ^ 1075) == 1 # 2 ^ 1073.
Proof. repeat split; vm_compute; reflexivity. Qed.

Example formatted_value_examples :
  map (get_formatted_value create_c_scale_calculator)
    [Finite 3.14159; Finite 2.675; Finite 9007199254740993; Finite (10 ^ 400);
     Finite (- (10 ^ 400)); NegativeZero; Infinity false; Infinity true; NaN;
     Finite (-0.5)]
  = [Returns "3.142"; Returns "2.675"; Returns "9007199254740992.00";
     Raises OverflowError; Raises OverflowError; Returns "-0.00"; Returns "inf";
     Returns "-inf"; Returns "nan"; Returns "-0.50"]%string.
Proof. vm_compute. reflexivity. Qed.

Example format_fixed_examples :
  map (fun '(x, n) => format_fixed x n)
    [(3.14159, 3%nat); (-0.001, 2%nat); (2.5, 0%nat); (3.5, 0%nat); (0.125, 2%nat);
     (0.375, 2%nat); (-12.3456, 1%nat); (0, 2%nat); (999.9996, 3%nat); (0.999, 5%nat)]
  = ["3.142"; "-0.00"; "2"; "4"; "0.12"; "0.38"; "-12.3"; "0.00"; "1000.000"; "0.99900"]%string.
Proof. reflexivity. Qed.

(** * Properties *)

(** ** Comparisons *)

Lemma Qltb_lt (a b : Q) : Qltb a b = true <-> a < b.
Proof.
  unfold Qltb. rewrite negb_true_iff. split.
  - intros H. apply Qnot_le_lt. intros Hle.
    apply Qle_bool_iff in Hle. congruence.
  - intros H. destruct (Qle_bool b a) eqn:E; [| reflexivity].
    apply Qle_bool_iff in E. exfalso. exact (Qlt_not_le _ _ H E).
Qed.

Lemma Qltb_ge (a b : Q) : Qltb a b = false <-> b <= a.
Proof. unfold Qltb. rewrite negb_false_iff. apply Qle_bool_iff. Qed.

Lemma Qgeb_ge (a b : Q) : Qgeb a b = true <-> b <= a.
Proof. unfold Qgeb. apply Qle_bool_iff. Qed.

Lemma Qgeb_lt (a b : Q) : Qgeb a b = false <-> a < b.
Proof.
  unfold Qgeb. rewrite <- Qltb_lt. unfold Qltb.
  destruct (Qle_bool b a); simpl; split; congruence.
Qed.

(** ** The exact floor of the decimal logarithm *)

Section FloorLog10.

Local Open Scope Z_scope.

Lemma digits_below_spec (fuel : nat) :
    forall n m k,
      0 < n -> m <= n * 10 ^ Z.of_nat fuel ->
      let j := digits_below fuel n m k - k in
      0 <= j /\ m <= n * 10 ^ j /\ (0 < j -> n * 10 ^ (j - 1) < m).
  Proof.
    induction fuel as [| fuel IH]; intros n m k Hn Hm; cbn zeta.
    - simpl in *. replace (k - k) with 0 by lia. simpl. lia.
    - simpl digits_below. destruct (m <=? n) eqn:E.
      + replace (k - k) with 0 by lia. apply Z.leb_le in E. simpl. lia.
      + apply Z.leb_gt in E.
        assert (Hm' : m <= n * 10 * 10 ^ Z.of_nat fuel).
        { rewrite Nat2Z.inj_succ, Z.pow_succ_r in Hm by lia. lia. }
        specialize (IH (n * 10) m (k + 1) ltac:(lia) Hm'). cbn zeta in IH.
        set (r := digits_below fuel (n * 10) m (k + 1)) in *.
        destruct IH as (Hj & Hle & Hlt).
        replace (r - k) with (Z.succ (r - (k + 1))) by lia.
        split; [lia |]. split.
        * rewrite Z.pow_succ_r by lia. lia.
        * intros _. replace (Z.succ (r - (k + 1)) - 1) with (r - (k + 1)) by lia.
          destruct (Z.eq_dec (r - (k + 1)) 0) as [E0 | E0].
          -- rewrite E0. simpl. lia.
          -- specialize (Hlt ltac:(lia)).
             replace (r - (k + 1)) with (Z.succ (r - (k + 1) - 1)) by lia.
             rewrite Z.pow_succ_r by lia. lia.
  Qed.

Lemma digits_above_spec (fuel : nat) :
    forall n m k,
      0 < m -> m <= n -> n < m * 10 ^ (Z.of_nat fuel + 1) ->
      let j := digits_above fuel n m k - k in
      0 <= j /\ m * 10 ^ j <= n < m * 10 ^ (j + 1).
  Proof.
    induction fuel as [| fuel IH]; intros n m k Hm Hmn Hn; cbn zeta.
    - simpl in *. replace (k - k) with 0 by lia. simpl. lia.
    - simpl digits_above. destruct (n <? m * 10) eqn:E.
      + replace (k - k) with 0 by lia. apply Z.ltb_lt in E. simpl. lia.
      + apply Z.ltb_ge in E.
        assert (Hn' : n < m * 10 * 10 ^ (Z.of_nat fuel + 1)).
        { rewrite Nat2Z.inj_succ in Hn.
          replace (Z.succ (Z.of_nat fuel) + 1) with (Z.succ (Z.of_nat fuel + 1)) in Hn by lia.
          rewrite Z.pow_succ_r in Hn by lia. lia. }
        specialize (IH n (m * 10) (k + 1) ltac:(lia) E Hn'). cbn zeta in IH.
        set (r := digits_above fuel n (m * 10) (k + 1)) in *.
        destruct IH as (Hj & Hle & Hlt).
        replace (r - k) with (Z.succ (r - (k + 1))) by lia.
        split; [lia |].
        replace (Z.succ (r - (k + 1)) + 1) with (Z.succ (r - (k + 1) + 1)) by lia.
        rewrite !Z.pow_succ_r by lia. lia.
  Qed.

Lemma pow2_le_pow10 (a : Z) : 0 <= a -> 2 ^ a <= 10 ^ a.
  Proof. intros Ha. apply Z.pow_le_mono_l. lia. Qed.

Lemma lt_pow10_log2 (n : Z) : 0 < n -> n < 10 ^ (Z.log2 n + 1).
  Proof.
    intros Hn. pose proof (Z.log2_spec n Hn) as [_ H].
    pose proof (Z.log2_nonneg n).
    pose proof (pow2_le_pow10 (Z.log2 n + 1) ltac:(lia)).
    unfold Z.succ in H. lia.
  Qed.

End FloorLog10.

Lemma Qpower10_nonneg (j : Z) : (0 <= j)%Z -> 10 ^ j == inject_Z (10 ^ j).
Proof.
  intros Hj. symmetry. exact (Zpower_Qpower 10 j Hj).
Qed.

Lemma Qpower10_neg (j : Z) : (0 <= j)%Z -> 10 ^ (- j) == / inject_Z (10 ^ j).
Proof.
  intros Hj. rewrite Qpower_opp. rewrite (Qpower10_nonneg j Hj). reflexivity.
Qed.

Lemma Qinv_inject_le (a n : Z) (m : positive) :
  (0 < a)%Z -> (/ inject_Z a <= n # m <-> (Zpos m <= n * a)%Z).
Proof.
  intros Ha. destruct a as [| p | p]; try lia.
  unfold Qle; simpl. lia.
Qed.

Lemma Qinv_inject_gt (a n : Z) (m : positive) :
  (0 < a)%Z -> (n # m < / inject_Z a <-> (n * a < Zpos m)%Z).
Proof.
  intros Ha. destruct a as [| p | p]; try lia.
  unfold Qlt; simpl. lia.
Qed.

Lemma inject_le_frac (a n : Z) (m : positive) :
  inject_Z a <= n # m <-> (a * Zpos m <= n)%Z.
Proof. unfold Qle; simpl. lia. Qed.

Lemma frac_lt_inject (a n : Z) (m : positive) :
  n # m < inject_Z a <-> (n < a * Zpos m)%Z.
Proof. unfold Qlt; simpl. lia. Qed.

(** [floor_log10 x] is the decade of [x]. *)
Lemma floor_log10_spec (x : Q) :
  0 < x -> 10 ^ floor_log10 x <= x /\ x < 10 ^ (floor_log10 x + 1).
Proof.
  destruct x as [n m]. intros Hx.
  assert (Hn : (0 < n)%Z) by (unfold Qlt in Hx; simpl in Hx; lia).
  unfold floor_log10; simpl Qnum; simpl Qden. cbv zeta.
  destruct (Z.pos m <=? n)%Z eqn:E.
  - apply Z.leb_le in E.
    pose proof (digits_above_spec (Z.to_nat (Z.log2 n)) n (Z.pos m) 0
                  ltac:(lia) E) as H.
    rewrite Z2Nat.id in H by apply Z.log2_nonneg.
    pose proof (lt_pow10_log2 n Hn) as Hlog.
    assert (Hfuel : (n < Z.pos m * 10 ^ (Z.log2 n + 1))%Z) by nia.
    specialize (H Hfuel). cbv zeta in H. rewrite Z.sub_0_r in H.
    set (j := digits_above (Z.to_nat (Z.log2 n)) n (Z.pos m) 0) in *.
    destruct H as (Hj & Hlo & Hhi).
    rewrite (Qpower10_nonneg j Hj), (Qpower10_nonneg (j + 1)) by lia.
    rewrite inject_le_frac, frac_lt_inject. lia.
  - apply Z.leb_gt in E.
    pose proof (digits_below_spec (S (Z.to_nat (Z.log2 (Z.pos m)))) n (Z.pos m) 0 Hn) as H.
    rewrite Nat2Z.inj_succ, Z2Nat.id in H by apply Z.log2_nonneg.
    pose proof (lt_pow10_log2 (Z.pos m) ltac:(lia)) as Hlog.
    assert (Hfuel : (Z.pos m <= n * 10 ^ Z.succ (Z.log2 (Z.pos m)))%Z)
      by (unfold Z.succ; nia).
    specialize (H Hfuel). cbv zeta in H. rewrite Z.sub_0_r in H.
    set (j := digits_below (S (Z.to_nat (Z.log2 (Z.pos m)))) n (Z.pos m) 0) in *.
    destruct H as (Hj & Hlo & Hhi).
    assert (Hj1 : (0 < j)%Z).
    { destruct (Z.eq_dec j 0) as [E0 | E0]; [| lia].
      rewrite E0 in Hlo. simpl in Hlo. lia. }
    specialize (Hhi Hj1).
    replace (- j + 1)%Z with (- (j - 1))%Z by lia.
    rewrite (Qpower10_neg j Hj), (Qpower10_neg (j - 1)) by lia.
    rewrite Qinv_inject_le by (apply Z.pow_pos_nonneg; lia).
    rewrite Qinv_inject_gt by (apply Z.pow_pos_nonneg; lia).
    lia.
Qed.

(** The decade of a positive rational is unique. *)
Lemma decade_unique (x : Q) (d e : Z) :
  10 ^ d <= x -> x < 10 ^ (d + 1) ->
  10 ^ e <= x -> x < 10 ^ (e + 1) ->
  d = e.
Proof.
  intros Hd1 Hd2 He1 He2.
  assert (H10 : 1 < 10) by reflexivity.
  assert (Hde : (d < e + 1)%Z).
  { apply (Qpower_lt_compat_l_inv 10); [| exact H10].
    eapply Qle_lt_trans; eassumption. }
  assert (Hed : (e < d + 1)%Z).
  { apply (Qpower_lt_compat_l_inv 10); [| exact H10].
    eapply Qle_lt_trans; eassumption. }
  lia.
Qed.

Lemma floor_log10_unique (x : Q) (d : Z) :
  10 ^ d <= x -> x < 10 ^ (d + 1) -> floor_log10 x = d.
Proof.
  intros H1 H2.
  assert (Hx : 0 < x).
  { eapply Qlt_le_trans; [| exact H1]. apply Qpower_0_lt. reflexivity. }
  destruct (floor_log10_spec x Hx) as [H3 H4].
  exact (decade_unique x _ _ H3 H4 H1 H2).
Qed.

Lemma math_floor_log10_pos (x : Q) :
  0 < x -> math_floor_log10 x = Returns (rounded_floor_log10 x).
Proof.
  intros Hx. unfold math_floor_log10.
  destruct (Qle_bool x 0) eqn:E; [| reflexivity].
  apply Qle_bool_iff in E. exfalso. exact (Qlt_not_le _ _ Hx E).
Qed.

(** *** [floor_log10] and the real logarithm *)








(** ** The conversion from an interval to decimal places *)

Lemma interval_to_decimal_places_ge1 (interval : Q) :
  1 <= interval -> _interval_to_decimal_places interval = Returns 1%Z.
Proof.
  intros H. unfold _interval_to_decimal_places.
  apply Qgeb_ge in H. rewrite H. reflexivity.
Qed.

Lemma interval_to_decimal_places_lt1 (interval : Q) :
  0 < interval -> interval < 1 ->
  _interval_to_decimal_places interval
  = Returns (Z.min (Z.max (- rounded_floor_log10 interval + 1) 1) 5).
Proof.
  intros Hpos Hlt. unfold _interval_to_decimal_places.
  apply Qgeb_lt in Hlt. rewrite Hlt.
  rewrite (math_floor_log10_pos interval Hpos). reflexivity.
Qed.

(** Whatever the conversion returns lies in [1, 5]. *)
Lemma interval_to_decimal_places_range (interval : Q) (n : Z) :
  _interval_to_decimal_places interval = Returns n -> (1 <= n <= 5)%Z.
Proof.
  unfold _interval_to_decimal_places.
  destruct (Qgeb interval 1).
  - intros H; inversion H; lia.
  - unfold math_floor_log10. destruct (Qle_bool interval 0); simpl.
    + discriminate.
    + intros H; inversion H; lia.
Qed.

Lemma interval_to_decimal_places_returns (interval : Q) :
  0 < interval ->
  exists n, _interval_to_decimal_places interval = Returns n /\ (1 <= n <= 5)%Z.
Proof.
  intros Hpos.
  destruct (Qlt_le_dec interval 1) as [Hlt | Hge].
  - eexists. split; [apply interval_to_decimal_places_lt1; assumption | lia].
  - exists 1%Z. split; [apply interval_to_decimal_places_ge1; assumption | lia].
Qed.

(** Outside the contract: an interval that is not positive makes
    [math.log10] raise, also through [get_decimal_places]. *)
Lemma interval_to_decimal_places_raises (interval : Q) :
  interval <= 0 -> _interval_to_decimal_places interval = Raises ValueError.
Proof.
  intros H. unfold _interval_to_decimal_places.
  assert (Hlt : interval < 1).
  { eapply Qle_lt_trans; [exact H | reflexivity]. }
  apply Qgeb_lt in Hlt. rewrite Hlt.
  unfold math_floor_log10. apply Qle_bool_iff in H. rewrite H. reflexivity.
Qed.

Example zero_interval_raises :
  get_decimal_places
    (__init__ {| sd_subsections := [sub 1 (Some 1) (Some 0.5) (Some 0.1) (Some 0)];
                 sd_beginscale := 1; sd_endscale := 10; sd_xfactor := None |}) 5
  = Raises ValueError.
Proof. reflexivity. Qed.

(** *** The rounded logarithm *)

Lemma rounded_floor_log10_below (x : Q) :
  x <= rounding_threshold (floor_log10 x + 1) ->
  rounded_floor_log10 x = floor_log10 x.
Proof.
  intros H. unfold rounded_floor_log10. cbv zeta.
  destruct (Qltb (rounding_threshold (floor_log10 x + 1)) x) eqn:E; [| reflexivity].
  apply Qltb_lt in E. exfalso. exact (Qlt_not_le _ _ E H).
Qed.

Lemma rounded_floor_log10_above (x : Q) :
  rounding_threshold (floor_log10 x + 1) < x ->
  rounded_floor_log10 x = (floor_log10 x + 1)%Z.
Proof.
  intros H. unfold rounded_floor_log10. cbv zeta.
  apply Qltb_lt in H. rewrite H. reflexivity.
Qed.

(** Rounding moves the floor by at most one decade, upwards. *)
Lemma rounded_floor_log10_cases (x : Q) :
  rounded_floor_log10 x = floor_log10 x \/
  rounded_floor_log10 x = (floor_log10 x + 1)%Z.
Proof.
  unfold rounded_floor_log10. cbv zeta.
  destruct (Qltb _ x); [right | left]; reflexivity.
Qed.

(** Rounding keeps the order of the arguments. *)
Lemma rounded_floor_log10_monotone (a b : Q) :
  0 < a -> a <= b -> (rounded_floor_log10 a <= rounded_floor_log10 b)%Z.
Proof.
  intros Ha Hab.
  assert (Hb : 0 < b) by (eapply Qlt_le_trans; eassumption).
  destruct (floor_log10_spec a Ha) as [Hlo _].
  destruct (floor_log10_spec b Hb) as [_ Hhi].
  assert (H : (floor_log10 a < floor_log10 b + 1)%Z).
  { apply (Qpower_lt_compat_l_inv 10); [| reflexivity].
    eapply Qle_lt_trans; [exact Hlo |].
    eapply Qle_lt_trans; [exact Hab | exact Hhi]. }
  destruct (Z.eq_dec (floor_log10 a) (floor_log10 b)) as [E | E].
  - unfold rounded_floor_log10. cbv zeta. rewrite E.
    destruct (Qltb (rounding_threshold (floor_log10 b + 1)) a) eqn:Ea.
    + apply Qltb_lt in Ea.
      assert (Eb : Qltb (rounding_threshold (floor_log10 b + 1)) b = true).
      { apply Qltb_lt. eapply Qlt_le_trans; eassumption. }
      rewrite Eb. lia.
    + destruct (Qltb (rounding_threshold (floor_log10 b + 1)) b); lia.
  - destruct (rounded_floor_log10_cases a) as [Ea | Ea];
      destruct (rounded_floor_log10_cases b) as [Eb | Eb]; lia.
Qed.

(** No argument below 1 has its logarithm rounded to 0. *)
Lemma rounded_floor_log10_negative (x : Q) :
  0 < x -> x < 1 -> (rounded_floor_log10 x < 0)%Z.
Proof.
  intros Hpos Hlt.
  destruct (floor_log10_spec x Hpos) as [Hlo _].
  assert (Hd : (floor_log10 x < 0)%Z).
  { apply (Qpower_lt_compat_l_inv 10); [| reflexivity].
    eapply Qle_lt_trans; [exact Hlo | exact Hlt]. }
  destruct (Z.eq_dec (floor_log10 x) (-1)) as [E | E].
  - rewrite rounded_floor_log10_below; [lia |].
    rewrite E. change (-1 + 1)%Z with 0%Z.
    assert (HT : rounding_threshold 0 == 1) by reflexivity.
    rewrite HT. apply Qlt_le_weak. exact Hlt.
  - destruct (rounded_floor_log10_cases x) as [Ex | Ex]; lia.
Qed.


(** *** A logarithm that rounds to an integer

    The binary64 value just below 0.1 is [7205759403792793 * 2 ^ -56].  Its
    decimal logarithm is below -1, but by less than [2 ^ -53], half the
    distance from -1 to the binary64 value below -1: the nearest binary64
    value is -1.0. *)

Lemma ln_ge_one_minus_inv (y : R) : (0 < y -> 1 - / y <= ln y)%R.
Proof.
  intros Hy.
  assert (Hi : (0 < / y)%R) by (apply Rinv_0_lt_compat; exact Hy).
  pose proof (exp_ineq1_le (/ y - 1)%R) as H.
  replace (1 + (/ y - 1))%R with (/ y)%R in H by ring.
  assert (H' : (ln (/ y) <= / y - 1)%R).
  { destruct H as [H | H].
    - left. rewrite <- (ln_exp (/ y - 1)). apply ln_increasing; assumption.
    - right. rewrite H at 1. apply ln_exp. }
  rewrite ln_Rinv in H' by exact Hy. lra.
Qed.

Lemma ln10_gt_1 : (1 < ln 10)%R.
Proof.
  rewrite <- (ln_exp 1). apply ln_increasing; [apply exp_pos |].
  pose proof exp_le_3. lra.
Qed.

Lemma log10_just_below_tenth :
  (- 1 - / 2 ^ 53 < log10 (Q2R (7205759403792793 # 2 ^ 56)) < - 1)%R.
Proof.
  replace (/ 2 ^ 53)%R with (/ 9007199254740992)%R by (f_equal; lra).
  set (y := (1 - 3 / 36028797018963968)%R).
  assert (Hx : Q2R (7205759403792793 # 2 ^ 56) = (y * / 10)%R).
  { unfold Q2R, y. cbn [Qnum Qden].
    replace (Z.pos (2 ^ 56)) with 72057594037927936%Z by (vm_compute; reflexivity).
    field. }
  rewrite Hx. unfold log10.
  assert (Hy : (0 < y)%R) by (unfold y; lra).
  rewrite ln_mult by (try exact Hy; lra). rewrite ln_Rinv by lra.
  pose proof ln10_gt_1 as H10.
  pose proof (ln_ge_one_minus_inv y Hy) as Hlo.
  assert (Hinv : (/ y < 1 + / 9007199254740992)%R).
  { apply (Rmult_lt_reg_r y); [exact Hy |].
    rewrite Rinv_l by lra. unfold y. lra. }
  assert (Hneg : (ln y < 0)%R).
  { rewrite <- ln_1. apply ln_increasing; [exact Hy | unfold y; lra]. }
  assert (E : ((ln y + - ln 10) / ln 10 = ln y * / ln 10 - 1)%R) by (field; lra).
  rewrite E.
  assert (Hi10 : (0 < / ln 10 < 1)%R).
  { split; [apply Rinv_0_lt_compat; lra |].
    rewrite <- Rinv_1. apply Rinv_lt_contravar; lra. }
  split.
  - assert ((ln y <= ln y * / ln 10)%R) by nra. lra.
  - assert ((ln y * / ln 10 < 0)%R) by nra. lra.
Qed.




(** C4: every strictly positive interval, however small, converts to a value
    in [1, 5]; 0.000001 converts to 5; and on the LL00 scale the cursor at
    0.999 gets 5 decimal places (raw 6, clamped). *)
Theorem interval_to_decimal_places_clamped :
  (forall interval : Q,
      0 < interval ->
      exists n : Z,
        _interval_to_decimal_places interval = Returns n /\ (1 <= n <= 5)%Z) /\
  _interval_to_decimal_places 0.000001 = Returns 5%Z /\
  _get_smallest_interval (sub 0.998 (Some 0.0005) (Some 0.0001) (Some 0.00005) (Some 0.00001))
  = Some 0.00001 /\
  (- floor_log10 0.00001 + 1 = 6)%Z /\
  get_decimal_places create_ll00_scale_calculator 0.999 = Returns 5%Z.
Proof.
  split; [exact interval_to_decimal_places_returns |].
  repeat split; reflexivity.
Qed.

Lemma interval_to_decimal_places_clamped_witness :
  0 < 0.00002 /\
  exists n : Z,
    _interval_to_decimal_places 0.00002 = Returns n /\ (1 <= n <= 5)%Z.
Proof.
  assert (H : 0 < 0.00002) by reflexivity.
  split; [exact H |].
  exact (proj1 interval_to_decimal_places_clamped 0.00002 H).
Defined.

(** C5: on the decade intervals 0.1, 0.01, 0.001 and 0.0001 the conversion
    yields 2, 3, 4 and 5: one more digit per decade. *)
Theorem interval_to_decimal_places_decades :
  _interval_to_decimal_places 0.1 = Returns 2%Z /\
  _interval_to_decimal_places 0.01 = Returns 3%Z /\
  _interval_to_decimal_places 0.001 = Returns 4%Z /\
  _interval_to_decimal_places 0.0001 = Returns 5%Z.
Proof. repeat split; reflexivity. Qed.

(** ** The constructor's sort *)

Lemma insert_by_beginsub_perm (s : subsection) (l : list subsection) :
  Permutation (insert_by_beginsub s l) (s :: l).
Proof.
  induction l as [| t l IH]; simpl.
  - apply Permutation_refl.
  - destruct (Qle_bool (beginsub s) (beginsub t)).
    + apply Permutation_refl.
    + eapply perm_trans; [apply perm_skip; exact IH | apply perm_swap].
Qed.

Lemma sort_by_beginsub_perm (l : list subsection) :
  Permutation (sort_by_beginsub l) l.
Proof.
  induction l as [| s l IH]; simpl.
  - apply perm_nil.
  - eapply perm_trans; [apply insert_by_beginsub_perm |].
    apply perm_skip. exact IH.
Qed.

Lemma insert_by_beginsub_sorted (s : subsection) (l : list subsection) :
  StronglySorted le_beginsub l ->
  StronglySorted le_beginsub (insert_by_beginsub s l).
Proof.
  induction 1 as [| t l Hs IH Ht]; simpl.
  - repeat constructor.
  - destruct (Qle_bool (beginsub s) (beginsub t)) eqn:E.
    + apply Qle_bool_iff in E.
      constructor; [constructor; assumption |].
      constructor; [exact E |].
      eapply Forall_impl; [| exact Ht].
      intros u Hu. unfold le_beginsub in *. eapply Qle_trans; eassumption.
    + constructor; [exact IH |].
      apply (Permutation_Forall (Permutation_sym (insert_by_beginsub_perm s l))).
      constructor; [| exact Ht].
      unfold le_beginsub. apply Qlt_le_weak. apply Qltb_lt.
      unfold Qltb. rewrite E. reflexivity.
Qed.

Lemma sort_by_beginsub_sorted (l : list subsection) :
  StronglySorted le_beginsub (sort_by_beginsub l).
Proof.
  induction l as [| s l IH]; simpl.
  - constructor.
  - apply insert_by_beginsub_sorted. exact IH.
Qed.

Lemma insert_by_beginsub_strict (s : subsection) (l : list subsection) :
  StronglySorted lt_beginsub l ->
  Forall (fun t => ~ beginsub s == beginsub t) l ->
  StronglySorted lt_beginsub (insert_by_beginsub s l).
Proof.
  induction 1 as [| t l Hs IH Ht]; simpl; intros Hne.
  - repeat constructor.
  - inversion Hne as [| ? ? Hst Hne']; subst.
    destruct (Qle_bool (beginsub s) (beginsub t)) eqn:E.
    + apply Qle_bool_iff in E.
      assert (Hlt : beginsub s < beginsub t).
      { apply Qle_lteq in E. destruct E as [E | E]; [exact E | contradiction]. }
      constructor; [constructor; assumption |].
      constructor; [exact Hlt |].
      eapply Forall_impl; [| exact Ht].
      intros u Hu. unfold lt_beginsub in *. eapply Qlt_trans; eassumption.
    + constructor; [exact (IH Hne') |].
      apply (Permutation_Forall (Permutation_sym (insert_by_beginsub_perm s l))).
      constructor; [| exact Ht].
      unfold lt_beginsub. apply Qltb_lt.
      unfold Qltb. rewrite E. reflexivity.
Qed.

Lemma sort_by_beginsub_strict (l : list subsection) :
  distinct_beginsub l -> StronglySorted lt_beginsub (sort_by_beginsub l).
Proof.
  induction 1 as [| s l Hs Hl IH]; simpl.
  - constructor.
  - apply insert_by_beginsub_strict; [exact IH |].
    exact (Permutation_Forall (Permutation_sym (sort_by_beginsub_perm l)) Hs).
Qed.

(** A strictly ascending list and an ascending list with the same elements
    are the same list. *)
Lemma sorted_perm_eq (l1 : list subsection) :
  forall l2,
    StronglySorted lt_beginsub l1 ->
    StronglySorted le_beginsub l2 ->
    Permutation l1 l2 ->
    l1 = l2.
Proof.
  induction l1 as [| a l1 IH]; intros l2 H1 H2 HP.
  - apply Permutation_nil in HP. congruence.
  - destruct l2 as [| b l2].
    { apply Permutation_sym, Permutation_nil in HP. discriminate. }
    inversion H1 as [| ? ? H1s H1a]; subst.
    inversion H2 as [| ? ? H2s H2b]; subst.
    assert (Hab : a = b).
    { assert (Ha : In a (b :: l2))
        by (eapply Permutation_in; [exact HP | left; reflexivity]).
      assert (Hb : In b (a :: l1))
        by (eapply Permutation_in;
            [apply Permutation_sym; exact HP | left; reflexivity]).
      destruct Ha as [Ha | Ha]; [congruence |].
      destruct Hb as [Hb | Hb]; [congruence |].
      rewrite Forall_forall in H1a, H2b.
      specialize (H1a b Hb). specialize (H2b a Ha).
      unfold lt_beginsub, le_beginsub in *.
      exfalso. exact (Qlt_not_le _ _ H1a H2b). }
    subst b. f_equal.
    apply IH; try assumption.
    exact (Permutation_cons_inv HP).
Qed.

(** With pairwise-distinct [beginsub] values the sorted list does not depend
    on the order of the input. *)
Lemma sort_by_beginsub_permuted (l1 l2 : list subsection) :
  distinct_beginsub l1 ->
  Permutation l1 l2 ->
  sort_by_beginsub l1 = sort_by_beginsub l2.
Proof.
  intros Hd HP.
  apply sorted_perm_eq.
  - apply sort_by_beginsub_strict. exact Hd.
  - apply sort_by_beginsub_sorted.
  - eapply perm_trans; [apply sort_by_beginsub_perm |].
    eapply perm_trans; [exact HP |].
    apply Permutation_sym, sort_by_beginsub_perm.
Qed.

(** The sort is stable: sub-ranges that start at the same value keep the
    order of the input list. *)
Lemma insert_by_beginsub_stable (k : Q) (s : subsection) (l : list subsection) :
  filter (fun t => Qeq_bool (beginsub t) k) (insert_by_beginsub s l)
  = filter (fun t => Qeq_bool (beginsub t) k) (s :: l).
Proof.
  induction l as [| t l IH]; [reflexivity |].
  cbn [insert_by_beginsub].
  destruct (Qle_bool (beginsub s) (beginsub t)) eqn:E; [reflexivity |].
  cbn [filter] in *. rewrite IH.
  destruct (Qeq_bool (beginsub t) k) eqn:Et; [| reflexivity].
  destruct (Qeq_bool (beginsub s) k) eqn:Es; [| reflexivity].
  apply Qeq_bool_iff in Et, Es.
  assert (Hle : Qle_bool (beginsub s) (beginsub t) = true).
  { apply Qle_bool_iff. rewrite Es, Et. apply Qle_refl. }
  congruence.
Qed.

Lemma sort_by_beginsub_stable (k : Q) (l : list subsection) :
  filter (fun t => Qeq_bool (beginsub t) k) (sort_by_beginsub l)
  = filter (fun t => Qeq_bool (beginsub t) k) l.
Proof.
  induction l as [| s l IH]; [reflexivity |].
  cbn [sort_by_beginsub fold_right].
  rewrite insert_by_beginsub_stable. cbn [filter].
  fold (sort_by_beginsub l). rewrite IH. reflexivity.
Qed.

(** ** Sub-range lookup *)

Lemma hd_error_app_cons {A : Type} (l : list A) (a : A) :
  hd_error (l ++ [a]) = match hd_error l with Some b => Some b | None => Some a end.
Proof. destruct l; reflexivity. Qed.

Lemma find_active_loop_sorted (position : Q) (l : list subsection) :
  StronglySorted le_beginsub l ->
  forall active,
    find_active_loop position l active
    = match last_qualifying position l with
      | Some s => Some s
      | None => active
      end.
Proof.
  unfold last_qualifying.
  induction 1 as [| s l Hs IH Hl]; intros active; simpl.
  - reflexivity.
  - unfold Qgeb. destruct (Qle_bool (beginsub s) position) eqn:E.
    + rewrite IH. simpl. rewrite hd_error_app_cons.
      destruct (hd_error _); reflexivity.
    + assert (Hnil : filter (fun s0 => Qle_bool (beginsub s0) position) l = []).
      { clear IH Hs.
        induction Hl as [| t l Ht Hl IH]; [constructor |].
        simpl. assert (Et : Qle_bool (beginsub t) position = false).
        { destruct (Qle_bool (beginsub t) position) eqn:Et; [| reflexivity].
          apply Qle_bool_iff in Et. unfold le_beginsub in Ht.
          assert (Hc : Qle_bool (beginsub s) position = true)
            by (apply Qle_bool_iff; eapply Qle_trans; eassumption).
          congruence. }
        rewrite Et. exact IH. }
      rewrite Hnil. reflexivity.
Qed.

Lemma find_active_loop_In (position : Q) (l : list subsection) :
  forall active s,
    find_active_loop position l active = Some s ->
    In s l \/ active = Some s.
Proof.
  induction l as [| t l IH]; intros active s; simpl.
  - auto.
  - destruct (Qgeb position (beginsub t)).
    + intros H. destruct (IH _ _ H) as [H' | H'].
      * left; right; exact H'.
      * left; left; congruence.
    + auto.
Qed.

Lemma find_active_subsection_In (self : ScalePrecisionCalculator) (position : Q)
    (s : subsection) :
  _find_active_subsection self position = Some s -> In s (subsections self).
Proof.
  unfold _find_active_subsection. intros H.
  destruct (find_active_loop_In _ _ _ _ H) as [H' | H']; [exact H' | discriminate].
Qed.

(** C3: the active sub-range is the last entry of the sorted list whose
    [beginsub] is at most the position; with sub-ranges starting at 1, 2, 4
    and 10, the positions 1.999, 2.0 and 3.999 select the sub-ranges starting
    at 1, 2 and 2. *)
Theorem find_active_subsection_last :
  (forall (definition : scale_definition) (position : Q),
      _find_active_subsection (__init__ definition) position
      = last_qualifying position (subsections (__init__ definition))) /\
  map beginsub (subsections (__init__ four_subsection_definition)) = [1; 2; 4; 10] /\
  option_map beginsub
    (_find_active_subsection (__init__ four_subsection_definition) 1.999) = Some 1 /\
  option_map beginsub
    (_find_active_subsection (__init__ four_subsection_definition) 2.0) = Some 2 /\
  option_map beginsub
    (_find_active_subsection (__init__ four_subsection_definition) 3.999) = Some 2.
Proof.
  split.
  - intros definition position. unfold _find_active_subsection.
    rewrite find_active_loop_sorted by (simpl; apply sort_by_beginsub_sorted).
    destruct (last_qualifying _ _); reflexivity.
  - repeat split; reflexivity.
Qed.

(** ** Finest-interval extraction *)

Lemma first_not_none_rev (l : list (option Q)) :
  (exists pre v post,
      l = pre ++ Some v :: post /\
      Forall (fun i => i = None) post /\
      first_not_none (rev l) = Some v) \/
  (Forall (fun i => i = None) l /\ first_not_none (rev l) = None).
Proof.
  induction l as [| i l IH] using rev_ind.
  - right. split; [constructor | reflexivity].
  - rewrite rev_app_distr. simpl. destruct i as [v |].
    + left. exists l, v, []. repeat split. constructor.
    + destruct IH as [(pre & v & post & Hl & Hpost & Hr) | [Hall Hr]].
      * left. exists pre, v, (post ++ [None]). subst l. repeat split.
        -- rewrite <- app_assoc. reflexivity.
        -- apply Forall_app. split; [exact Hpost | repeat constructor].
        -- exact Hr.
      * right. split; [| exact Hr].
        apply Forall_app. split; [exact Hall | repeat constructor].
Qed.

Lemma first_not_none_In (l : list (option Q)) (v : Q) :
  first_not_none l = Some v -> In (Some v) l.
Proof.
  induction l as [| [w |] l IH]; simpl.
  - discriminate.
  - intros H. left. exact H.
  - intros H. right. exact (IH H).
Qed.

Lemma get_smallest_interval_In (s : subsection) (v : Q) :
  _get_smallest_interval s = Some v -> In (Some v) (intervals s).
Proof.
  unfold _get_smallest_interval. intros H.
  apply in_rev. exact (first_not_none_In _ _ H).
Qed.

(** C6: the finest interval of a sub-range is the last value of its
    [intervals] that is not absent (the first one met when scanning from the
    end), and nothing is returned when every entry is absent;
    [1, None, None, 0.2] gives 0.2 and [1, None, 0.5, 0.1] gives 0.1. *)
Theorem get_smallest_interval_spec :
  (forall s : subsection,
      (exists pre v post,
          intervals s = pre ++ Some v :: post /\
          Forall (fun i => i = None) post /\
          _get_smallest_interval s = Some v) \/
      (Forall (fun i => i = None) (intervals s) /\
       _get_smallest_interval s = None)) /\
  (forall b : Q, _get_smallest_interval (sub b (Some 1) None None (Some 0.2)) = Some 0.2) /\
  (forall b : Q, _get_smallest_interval (sub b (Some 1) None (Some 0.5) (Some 0.1)) = Some 0.1) /\
  (forall b : Q, _get_smallest_interval (sub b None None None None) = None).
Proof.
  split; [| repeat split; reflexivity].
  intros s. unfold _get_smallest_interval. apply first_not_none_rev.
Qed.

(** ** Decimal places *)

Lemma find_active_loop_precedes (position : Q) (l : list subsection)
    (active : option subsection) :
  Forall (fun s => position < beginsub s) l ->
  find_active_loop position l active = active.
Proof.
  destruct 1 as [| s l Hs _]; simpl.
  - reflexivity.
  - apply Qgeb_lt in Hs. rewrite Hs. reflexivity.
Qed.

Lemma all_absent_smallest (s : subsection) :
  all_absent s -> _get_smallest_interval s = None.
Proof.
  unfold all_absent. intros H.
  destruct (_get_smallest_interval s) as [v |] eqn:E; [| reflexivity].
  apply get_smallest_interval_In in E.
  rewrite Forall_forall in H. specialize (H _ E). discriminate.
Qed.

(** C7: in every degenerate case [get_decimal_places] raises nothing and
    returns the default 2. *)
Theorem get_decimal_places_default (self : ScalePrecisionCalculator) (position : Q) :
  degenerate self position ->
  get_decimal_places self position = Returns 2%Z.
Proof.
  intros [Hout | Hlo Hhi Hnone | s Hs Habs]; unfold get_decimal_places.
  - assert (E : Qltb position (beginscale self) || Qltb (endscale self) position = true).
    { apply orb_true_iff. destruct Hout as [H | H]; [left | right];
        apply Qltb_lt; exact H. }
    rewrite E. reflexivity.
  - destruct (Qltb position (beginscale self) || Qltb (endscale self) position);
      [reflexivity |].
    unfold _find_active_subsection.
    rewrite (find_active_loop_precedes _ _ _ Hnone). reflexivity.
  - destruct (Qltb position (beginscale self) || Qltb (endscale self) position);
      [reflexivity |].
    rewrite Hs, (all_absent_smallest s Habs). reflexivity.
Qed.

Lemma get_decimal_places_default_witness :
  get_decimal_places (__init__ defective_definition) 0.5 = Returns 2%Z /\
  get_decimal_places (__init__ defective_definition) 12 = Returns 2%Z /\
  get_decimal_places (__init__ defective_definition) 1.5 = Returns 2%Z /\
  get_decimal_places (__init__ defective_definition) 7 = Returns 2%Z.
Proof.
  split; [| split; [| split]]; apply get_decimal_places_default.
  - apply out_of_bounds. left. reflexivity.
  - apply out_of_bounds. right. reflexivity.
  - apply no_subsection.
    + unfold Qle; simpl; lia.
    + unfold Qle; simpl; lia.
    + repeat constructor.
  - apply (no_interval _ _ (sub 5 None None None None)).
    + reflexivity.
    + repeat constructor.
Defined.

Lemma get_decimal_places_range (self : ScalePrecisionCalculator) (position : Q) (n : Z) :
  get_decimal_places self position = Returns n -> (1 <= n <= 5)%Z.
Proof.
  unfold get_decimal_places.
  destruct (Qltb position (beginscale self) || Qltb (endscale self) position).
  { intros H; inversion H; lia. }
  destruct (_find_active_subsection self position) as [s |].
  2: { intros H; inversion H; lia. }
  destruct (_get_smallest_interval s) as [v |].
  2: { intros H; inversion H; lia. }
  apply interval_to_decimal_places_range.
Qed.

Lemma get_decimal_places_returns (self : ScalePrecisionCalculator) (position : Q) :
  positive_intervals (subsections self) ->
  exists n, get_decimal_places self position = Returns n /\ (1 <= n <= 5)%Z.
Proof.
  intros Hpos. unfold get_decimal_places.
  destruct (Qltb position (beginscale self) || Qltb (endscale self) position).
  { exists 2%Z. split; [reflexivity | lia]. }
  destruct (_find_active_subsection self position) as [s |] eqn:Es.
  2: { exists 2%Z. split; [reflexivity | lia]. }
  destruct (_get_smallest_interval s) as [v |] eqn:Ev.
  2: { exists 2%Z. split; [reflexivity | lia]. }
  apply interval_to_decimal_places_returns.
  apply find_active_subsection_In in Es.
  apply get_smallest_interval_In in Ev.
  unfold positive_intervals in Hpos. rewrite Forall_forall in Hpos.
  specialize (Hpos s Es). rewrite Forall_forall in Hpos.
  exact (Hpos (Some v) Ev v eq_refl).
Qed.

(** C9: for every scale configuration whose intervals are all strictly
    positive, and every position, [get_decimal_places] returns an integer in
    [1, 5]. *)
Theorem get_decimal_places_in_range (definition : scale_definition) (position : Q) :
  positive_intervals (sd_subsections definition) ->
  exists n : Z,
    get_decimal_places (__init__ definition) position = Returns n /\
    (1 <= n <= 5)%Z.
Proof.
  intros Hpos. apply get_decimal_places_returns. simpl.
  exact (Permutation_Forall
           (Permutation_sym (sort_by_beginsub_perm (sd_subsections definition))) Hpos).
Qed.

Lemma positive_intervals_k_scale :
  positive_intervals (sd_subsections k_scale_definition).
Proof.
  unfold positive_intervals.
  repeat (constructor;
          [repeat (constructor;
                   [intros v Hv; first [discriminate Hv
                                       | injection Hv as <-; reflexivity] |]);
           constructor |]).
  constructor.
Defined.

Lemma get_decimal_places_in_range_witness :
  positive_intervals (sd_subsections k_scale_definition) /\
  exists n : Z,
    get_decimal_places (__init__ k_scale_definition) 7.5 = Returns n /\
    (1 <= n <= 5)%Z.
Proof.
  split; [exact positive_intervals_k_scale |].
  exact (get_decimal_places_in_range k_scale_definition 7.5 positive_intervals_k_scale).
Defined.

Lemma init_permuted (definition : scale_definition) (permuted : list subsection) :
  distinct_beginsub (sd_subsections definition) ->
  Permutation (sd_subsections definition) permuted ->
  __init__ (with_subsections definition permuted) = __init__ definition.
Proof.
  intros Hd HP. unfold __init__. simpl.
  rewrite (sort_by_beginsub_permuted _ _ Hd HP). reflexivity.
Qed.

(** C10: when the sub-ranges of a configuration start at pairwise-distinct
    values, listing them in another order does not change
    [get_decimal_places]. *)
Theorem get_decimal_places_permutation_invariant
    (definition : scale_definition) (permuted : list subsection) (position : Q) :
  distinct_beginsub (sd_subsections definition) ->
  Permutation (sd_subsections definition) permuted ->
  get_decimal_places (__init__ (with_subsections definition permuted)) position
  = get_decimal_places (__init__ definition) position.
Proof.
  intros Hd HP. rewrite (init_permuted definition permuted Hd HP). reflexivity.
Qed.

Lemma distinct_beginsub_c_scale :
  distinct_beginsub (sd_subsections c_scale_definition).
Proof.
  unfold distinct_beginsub.
  repeat (constructor;
          [repeat (constructor; [intros H; discriminate H |]); constructor |]).
  constructor.
Defined.

Lemma get_decimal_places_permutation_invariant_witness :
  distinct_beginsub (sd_subsections c_scale_definition) /\
  Permutation (sd_subsections c_scale_definition)
    (rev (sd_subsections c_scale_definition)) /\
  get_decimal_places
    (__init__ (with_subsections c_scale_definition
                 (rev (sd_subsections c_scale_definition)))) 3.14159
  = get_decimal_places (__init__ c_scale_definition) 3.14159.
Proof.
  split; [exact distinct_beginsub_c_scale |].
  split; [apply Permutation_rev |].
  exact (get_decimal_places_permutation_invariant c_scale_definition
           (rev (sd_subsections c_scale_definition)) 3.14159
           distinct_beginsub_c_scale (Permutation_rev _)).
Defined.

(** Two sub-ranges that start at the same value: the sort keeps their input
    order, and the order decides the result. *)
Example shared_beginsub_order_matters :
  let a := sub 1 (Some 1) (Some 0.5) (Some 0.1) (Some 0.05) in
  let b := sub 1 (Some 10) (Some 5) (Some 1) (Some 0.5) in
  let definition := {| sd_subsections := [a; b]; sd_beginscale := 1;
                       sd_endscale := 10; sd_xfactor := None |} in
  get_decimal_places (__init__ definition) 5 = Returns 2%Z /\
  get_decimal_places (__init__ (with_subsections definition [b; a])) 5 = Returns 3%Z.
Proof. split; reflexivity. Qed.

(** ** The C scale *)

(** The claimed readings of the C scale do not all hold. *)
Lemma c_scale_claimed_values_fail :
  ~ (get_decimal_places create_c_scale_calculator 1.0 = Returns 3%Z /\
     get_decimal_places create_c_scale_calculator 5.0 = Returns 2%Z /\
     get_decimal_places create_c_scale_calculator 9.0 = Returns 2%Z /\
     get_decimal_places create_c_scale_calculator 50.0 = Returns 1%Z).
Proof.
  intros (_ & H & _). vm_compute in H. discriminate H.
Qed.

(** C2 (amended): on the C scale, of bounds 1 and 10, [get_decimal_places]
    returns 3 at 1.0, at 5.0 and at 9.0 (at 5.0 and 9.0 the active sub-range
    starts at 4 and its finest interval 0.05 lies in the decade of 0.01), and
    the out-of-bounds default 2 at 50.0, which is beyond the end of the
    scale. *)
Theorem c_scale_decimal_places :
  get_decimal_places create_c_scale_calculator 1.0 = Returns 3%Z /\
  get_decimal_places create_c_scale_calculator 5.0 = Returns 3%Z /\
  get_decimal_places create_c_scale_calculator 9.0 = Returns 3%Z /\
  get_decimal_places create_c_scale_calculator 50.0 = Returns 2%Z /\
  option_map beginsub (_find_active_subsection create_c_scale_calculator 5.0) = Some 4 /\
  option_map beginsub (_find_active_subsection create_c_scale_calculator 9.0) = Some 4 /\
  _get_smallest_interval (sub 4 (Some 1) (Some 0.5) (Some 0.1) (Some 0.05)) = Some 0.05 /\
  floor_log10 0.05 = (-2)%Z /\
  endscale create_c_scale_calculator < 50.0.
Proof. repeat split; reflexivity. Qed.

(** ** Formatting *)

Lemma digit_not_point (d : Z) :
  (0 <= d < 10)%Z -> Ascii.eqb (digit d) "." = false.
Proof.
  intros Hd.
  assert (H : (d = 0 \/ d = 1 \/ d = 2 \/ d = 3 \/ d = 4 \/
               d = 5 \/ d = 6 \/ d = 7 \/ d = 8 \/ d = 9)%Z) by lia.
  repeat (destruct H as [H | H]; [subst d; reflexivity |]).
  subst d; reflexivity.
Qed.

Lemma after_point_digit (v : Z) (s : string) :
  after_point (String (digit (v mod 10)) s) = after_point s.
Proof.
  cbn [after_point]. rewrite digit_not_point; [reflexivity |].
  apply Z.mod_pos_bound. lia.
Qed.

Lemma after_point_int_digits (fuel : nat) :
  forall v acc, after_point (int_digits fuel v acc) = after_point acc.
Proof.
  induction fuel as [| fuel IH]; intros v acc; cbn [int_digits].
  - apply after_point_digit.
  - destruct (v <? 10)%Z.
    + apply after_point_digit.
    + rewrite IH. apply after_point_digit.
Qed.

Lemma length_frac_digits (n : nat) :
  forall v acc, String.length (frac_digits n v acc) = (n + String.length acc)%nat.
Proof.
  induction n as [| n IH]; intros v acc; cbn [frac_digits].
  - reflexivity.
  - rewrite IH. cbn [String.length]. lia.
Qed.

Lemma after_point_sign (x : Q) (s : string) :
  after_point ((if Qltb x 0 then "-" else "") ++ s)%string = after_point s.
Proof. destruct (Qltb x 0); reflexivity. Qed.

(** With at least one fractional digit asked for, the text after the point
    has exactly that many characters. *)
Lemma format_fixed_fraction (x : Q) (n : nat) :
  (0 < n)%nat ->
  option_map String.length (after_point (format_fixed x n)) = Some n.
Proof.
  intros Hn. destruct n as [| n]; [lia |].
  unfold format_fixed. cbv zeta.
  rewrite after_point_sign, after_point_int_digits.
  cbn [after_point]. change (Ascii.eqb "." ".") with true. cbv iota.
  cbn [option_map]. rewrite length_frac_digits.
  cbn [String.length]. f_equal. lia.
Qed.

(** *** What [format_fixed] writes *)

Lemma round_half_even_nearest (x : Q) :
  Qabs (inject_Z (round_half_even x) - x) <= 1 # 2.
Proof.
  unfold round_half_even. cbv zeta.
  pose proof (Qfloor_le x) as Hlo. pose proof (Qlt_floor x) as Hhi.
  rewrite inject_Z_plus in Hhi. change (inject_Z 1) with 1 in Hhi.
  apply Qabs_Qle_condition.
  destruct (Qcompare_spec (x - inject_Z (Qfloor x)) (1 # 2)) as [E | E | E].
  - destruct (Z.even (Qfloor x));
      [| rewrite inject_Z_plus; change (inject_Z 1) with 1]; Lqa.lra.
  - Lqa.lra.
  - rewrite inject_Z_plus. change (inject_Z 1) with 1. Lqa.lra.
Qed.

Lemma round_half_even_nonneg (x : Q) : 0 <= x -> (0 <= round_half_even x)%Z.
Proof.
  intros Hx. unfold round_half_even. cbv zeta.
  assert (H : (0 <= Qfloor x)%Z).
  { change 0%Z with (Qfloor 0). apply Qfloor_resp_le. exact Hx. }
  destruct (Qcompare _ _); [destruct (Z.even _) | |]; lia.
Qed.

Lemma digit_value_digit (d : Z) :
  (0 <= d < 10)%Z -> digit_value (digit d) = d.
Proof.
  intros Hd.
  assert (H : (d = 0 \/ d = 1 \/ d = 2 \/ d = 3 \/ d = 4 \/
               d = 5 \/ d = 6 \/ d = 7 \/ d = 8 \/ d = 9)%Z) by lia.
  repeat (destruct H as [H | H]; [subst d; reflexivity |]).
  subst d; reflexivity.
Qed.

Lemma digits_value_digit (a v : Z) (s : string) :
  digits_value a (String (digit (v mod 10)) s)
  = digits_value (a * 10 + v mod 10) s.
Proof.
  cbn [digits_value]. rewrite digit_value_digit; [reflexivity |].
  apply Z.mod_pos_bound. lia.
Qed.

Lemma frac_digits_value (n : nat) :
  forall v a acc,
    digits_value a (frac_digits n v acc)
    = digits_value (a * 10 ^ Z.of_nat n + v mod 10 ^ Z.of_nat n) acc.
Proof.
  induction n as [| n IH]; intros v a acc.
  - cbn [frac_digits]. change (10 ^ Z.of_nat 0)%Z with 1%Z.
    rewrite Z.mod_1_r. f_equal. lia.
  - cbn [frac_digits]. rewrite IH, digits_value_digit. f_equal.
    rewrite Nat2Z.inj_succ, Z.pow_succ_r by lia.
    rewrite (Z.rem_mul_r v 10 (10 ^ Z.of_nat n)) by
      (try apply Z.pow_pos_nonneg; lia).
    lia.
Qed.

Lemma int_digits_value (fuel : nat) :
  forall v acc,
    (0 <= v < 10 ^ (Z.of_nat fuel + 1))%Z ->
    digits_value 0 (int_digits fuel v acc) = digits_value v acc.
Proof.
  induction fuel as [| fuel IH]; intros v acc Hv.
  - cbn [int_digits]. change (10 ^ (Z.of_nat 0 + 1))%Z with 10%Z in Hv.
    rewrite digits_value_digit, Z.mod_small by lia. reflexivity.
  - cbn [int_digits]. destruct (v <? 10)%Z eqn:E.
    + apply Z.ltb_lt in E.
      rewrite digits_value_digit, Z.mod_small by lia. reflexivity.
    + apply Z.ltb_ge in E.
      rewrite IH.
      * rewrite digits_value_digit. f_equal.
        pose proof (Z.div_mod v 10 ltac:(lia)). lia.
      * rewrite Nat2Z.inj_succ in Hv.
        replace (Z.succ (Z.of_nat fuel) + 1)%Z
          with (Z.succ (Z.of_nat fuel + 1)) in Hv by lia.
        rewrite Z.pow_succ_r in Hv by lia.
        split; [apply Z.div_pos; lia |].
        apply Z.div_lt_upper_bound; lia.
Qed.

Lemma string_app_assoc (s1 s2 s3 : string) :
  ((s1 ++ s2) ++ s3 = s1 ++ (s2 ++ s3))%string.
Proof.
  induction s1 as [| c s1 IH]; cbn [String.append]; [reflexivity |].
  rewrite IH. reflexivity.
Qed.

Lemma int_digits_app (fuel : nat) :
  forall v acc, int_digits fuel v acc = (int_digits fuel v "" ++ acc)%string.
Proof.
  induction fuel as [| fuel IH]; intros v acc; cbn [int_digits].
  - reflexivity.
  - destruct (v <? 10)%Z; [reflexivity |].
    rewrite IH, (IH _ (String _ "")).
    rewrite string_app_assoc. reflexivity.
Qed.

(** The text of a number: the sign, the integer digits, the point, and [n]
    fractional digits; read as one integer the digits are the scaled
    magnitude rounded to nearest. *)
Lemma format_fixed_reads_back (x : Q) (n : nat) :
  exists ipart fpart : string,
    format_fixed x (S n)
    = ((if Qltb x 0 then "-" else "") ++ ipart ++ String "." fpart)%string /\
    String.length fpart = S n /\
    after_point ipart = None /\
    Qabs (inject_Z (digits_value (digits_value 0 ipart) fpart)
          - Qabs x * inject_Z (10 ^ Z.of_nat (S n))) <= 1 # 2.
Proof.
  unfold format_fixed. cbv zeta.
  assert (Hscale : (0 < 10 ^ Z.of_nat (S n))%Z) by (apply Z.pow_pos_nonneg; lia).
  set (scale := (10 ^ Z.of_nat (S n))%Z) in *.
  set (scaled := round_half_even (Qabs x * inject_Z scale)).
  assert (Hs : (0 <= scaled)%Z).
  { apply round_half_even_nonneg. apply Qmult_le_0_compat.
    - apply Qabs_nonneg.
    - unfold Qle; simpl; lia. }
  exists (int_digits (Z.to_nat (Z.log2 (scaled / scale))) (scaled / scale) ""),
    (frac_digits (S n) (scaled mod scale) "").
  split; [f_equal; apply int_digits_app |].
  split; [rewrite length_frac_digits; cbn [String.length]; lia |].
  split; [apply after_point_int_digits |].
  assert (Hi : (0 <= scaled / scale)%Z) by (apply Z.div_pos; lia).
  rewrite int_digits_value.
  - cbn [digits_value]. rewrite frac_digits_value. cbn [digits_value].
    fold scale. rewrite Z.mod_mod by lia.
    replace (scaled / scale * scale + scaled mod scale)%Z with scaled
      by (pose proof (Z.div_mod scaled scale ltac:(lia)); lia).
    unfold scaled. apply round_half_even_nearest.
  - split; [exact Hi |].
    rewrite Z2Nat.id by apply Z.log2_nonneg.
    destruct (Z.eq_dec (scaled / scale) 0) as [E | E].
    + rewrite E. reflexivity.
    + apply lt_pow10_log2. lia.
Qed.

(** ** The binary64 value of a number *)

(** *** Powers of two *)

Lemma Qpower2_inject (j : Z) : (0 <= j)%Z -> 2 ^ j == inject_Z (2 ^ j).
Proof. intros Hj. symmetry. exact (Zpower_Qpower 2 j Hj). Qed.

Lemma Qpower2_pos (j : Z) : 0 < 2 ^ j.
Proof. apply Qpower_0_lt. reflexivity. Qed.

Lemma Qpower2_succ (j : Z) : 2 ^ (j + 1) == 2 * 2 ^ j.
Proof.
  rewrite Qpower_plus by discriminate. rewrite Qpower_1_r. ring.
Qed.

Lemma Qpower2_split (i j : Z) : 2 ^ i == 2 ^ (i - j) * 2 ^ j.
Proof.
  rewrite <- Qpower_plus by discriminate. replace (i - j + j)%Z with i by lia.
  reflexivity.
Qed.

Lemma floor_log2_spec (a : Q) :
  0 < a -> 2 ^ floor_log2 a <= a /\ a < 2 ^ (floor_log2 a + 1).
Proof.
  intros Ha.
  assert (Hn : (0 < Qnum a)%Z) by (unfold Qlt in Ha; simpl in Ha; lia).
  unfold floor_log2. cbv zeta.
  set (ln := Z.log2 (Qnum a)). set (lm := Z.log2 (Z.pos (Qden a))).
  pose proof (Z.log2_spec (Qnum a) Hn) as [Hn1 Hn2]. fold ln in Hn1, Hn2.
  pose proof (Z.log2_spec (Z.pos (Qden a)) ltac:(lia)) as [Hm1 Hm2]. fold lm in Hm1, Hm2.
  pose proof (Z.log2_nonneg (Qnum a)) as Hln. fold ln in Hln.
  pose proof (Z.log2_nonneg (Z.pos (Qden a))) as Hlm. fold lm in Hlm.
  rewrite Zle_Qle in Hn1, Hm1. rewrite Zlt_Qlt in Hn2, Hm2.
  unfold Z.succ in Hn2, Hm2.
  rewrite <- Qpower2_inject in Hn1, Hn2, Hm1, Hm2 by lia.
  rewrite Qpower2_succ in Hn2, Hm2.
  assert (HM : 0 < inject_Z (Z.pos (Qden a))) by reflexivity.
  assert (Hfrac : inject_Z (Qnum a) == a * inject_Z (Z.pos (Qden a))).
  { destruct a as [n m]. unfold Qeq. cbn. rewrite Pos2Z.inj_mul. ring. }
  set (N := inject_Z (Qnum a)) in *. set (M := inject_Z (Z.pos (Qden a))) in *.
  pose proof (Qpower2_pos lm) as Pm.
  pose proof (Qpower2_pos (ln - lm)) as Pe.
  pose proof (Qpower2_split ln lm) as Hs.
  set (A := 2 ^ ln) in *. set (B := 2 ^ lm) in *. set (E := 2 ^ (ln - lm)) in *.
  assert (Hup : a < 2 * E).
  { apply (Qmult_lt_r _ _ M HM). 
    assert (2 * A <= 2 * E * M) by (rewrite Hs; Lqa.nra).
    Lqa.lra. }
  assert (Hlo : E < 2 * a).
  { apply (Qmult_lt_r _ _ B Pm). rewrite <- Hs.
    assert (a * M < a * (2 * B)) by (apply Qmult_lt_l; assumption).
    Lqa.lra. }
  assert (E2 : 2 ^ (ln - lm + 1) == 2 * E) by apply Qpower2_succ.
  assert (E3 : 2 * 2 ^ (ln - lm - 1) == E).
  { rewrite <- Qpower2_succ. replace (ln - lm - 1 + 1)%Z with (ln - lm)%Z by lia.
    reflexivity. }
  destruct (Qle_bool E a) eqn:Ecmp.
  - apply Qle_bool_iff in Ecmp. split; [exact Ecmp |]. rewrite E2. exact Hup.
  - assert (Hlt : a < E).
    { apply Qnot_le_lt. intros H. apply Qle_bool_iff in H. congruence. }
    replace (ln - lm - 1 + 1)%Z with (ln - lm)%Z by lia. split; [| exact Hlt].
    Lqa.lra.
Qed.

Lemma floor_log2_unique (a : Q) (e : Z) :
  2 ^ e <= a -> a < 2 ^ (e + 1) -> floor_log2 a = e.
Proof.
  intros H1 H2.
  assert (Ha : 0 < a) by (eapply Qlt_le_trans; [apply Qpower2_pos | exact H1]).
  destruct (floor_log2_spec a Ha) as [H3 H4].
  assert (H2' : 1 < 2) by reflexivity.
  assert (Hde : (e < floor_log2 a + 1)%Z).
  { apply (Qpower_lt_compat_l_inv 2); [| exact H2'].
    eapply Qle_lt_trans; eassumption. }
  assert (Hed : (floor_log2 a < e + 1)%Z).
  { apply (Qpower_lt_compat_l_inv 2); [| exact H2'].
    eapply Qle_lt_trans; eassumption. }
  lia.
Qed.


(** *** Rounding to the nearest integer *)

Lemma round_half_even_comp (x y : Q) : x == y -> round_half_even x = round_half_even y.
Proof.
  intros H. unfold round_half_even. cbv zeta.
  rewrite (Qfloor_comp x y H).
  assert (E : Qcompare (x - inject_Z (Qfloor y)) (1 # 2)
              = Qcompare (y - inject_Z (Qfloor y)) (1 # 2)).
  { apply Qcompare_comp; [rewrite H |]; reflexivity. }
  rewrite E. reflexivity.
Qed.

Lemma round_half_even_inject (z : Z) : round_half_even (inject_Z z) = z.
Proof.
  unfold round_half_even. cbv zeta. rewrite Qfloor_Z.
  assert (E : Qcompare (inject_Z z - inject_Z z) (1 # 2) = Lt).
  { rewrite <- Qlt_alt. unfold Qminus. rewrite Qplus_opp_r. reflexivity. }
  rewrite E. reflexivity.
Qed.

Lemma round_half_even_ge (z : Z) (x : Q) :
  inject_Z z <= x -> (z <= round_half_even x)%Z.
Proof.
  intros H. unfold round_half_even. cbv zeta.
  assert (Hf : (z <= Qfloor x)%Z).
  { rewrite <- (Qfloor_Z z). apply Qfloor_resp_le. exact H. }
  destruct (Qcompare _ _); [destruct (Z.even _) | |]; lia.
Qed.

Lemma round_half_even_le (z : Z) (x : Q) :
  x <= inject_Z z -> (round_half_even x <= z)%Z.
Proof.
  intros H.
  destruct (Z_le_gt_dec (round_half_even x) z) as [Hle | Hgt]; [exact Hle |].
  exfalso. revert Hgt. unfold round_half_even. cbv zeta.
  pose proof (Qfloor_le x) as Hlo.
  assert (Hf : (Qfloor x <= z)%Z).
  { rewrite <- (Qfloor_Z z). apply Qfloor_resp_le. exact H. }
  destruct (Z.eq_dec (Qfloor x) z) as [E | E].
  - assert (Ex : x == inject_Z z).
    { apply Qle_antisym; [exact H |]. rewrite <- E. exact Hlo. }
    assert (Ec : Qcompare (x - inject_Z (Qfloor x)) (1 # 2) = Lt).
    { rewrite <- Qlt_alt. rewrite E, Ex. unfold Qminus. rewrite Qplus_opp_r. reflexivity. }
    rewrite Ec. lia.
  - destruct (Qcompare _ _); [destruct (Z.even _) | |]; lia.
Qed.

Lemma inject_Z_pred (z : Z) : inject_Z (z - 1) == inject_Z z - 1.
Proof. unfold Qeq. cbn. ring. Qed.

(** At half below an even integer the rounding goes up to it. *)
Lemma round_half_even_ge_half (z : Z) (x : Q) :
  Z.even z = true -> inject_Z z - (1 # 2) <= x -> (z <= round_half_even x)%Z.
Proof.
  intros Hz H.
  destruct (Qlt_le_dec x (inject_Z z)) as [Hlt | Hge];
    [| apply round_half_even_ge; exact Hge].
  assert (Hf : Qfloor x = (z - 1)%Z).
  { apply Z.le_antisymm.
    - assert (Qfloor x < z)%Z; [| lia].
      rewrite Zlt_Qlt. eapply Qle_lt_trans; [apply Qfloor_le | exact Hlt].
    - rewrite <- (Qfloor_Z (z - 1)). apply Qfloor_resp_le.
      rewrite inject_Z_pred. Lqa.lra. }
  unfold round_half_even. cbv zeta. rewrite Hf.
  assert (Hodd : Z.even (z - 1) = false).
  { rewrite Z.even_sub, Hz. reflexivity. }
  rewrite Hodd.
  destruct (Qcompare_spec (x - inject_Z (z - 1)) (1 # 2)) as [E | E | E]; try lia.
  exfalso. rewrite inject_Z_pred in E. Lqa.lra.
Qed.

(** *** The conversion *)

Lemma Qabs_nonzero (x : Q) : ~ x == 0 -> 0 < Qabs x.
Proof.
  intros H. destruct (Qlt_le_dec 0 (Qabs x)) as [Hp | Hn]; [exact Hp |].
  exfalso. apply H. apply Qabs_Qle_condition in Hn. apply Qle_antisym; Lqa.lra.
Qed.

Lemma binary64_zero (x : Q) : x == 0 -> binary64 x = 0.
Proof.
  intros H. unfold binary64. apply Qeq_bool_iff in H. rewrite H. reflexivity.
Qed.

Lemma binary64_abs (x : Q) :
  ~ x == 0 ->
  Qabs (binary64 x)
  == inject_Z (round_half_even (Qabs x / 2 ^ last_bit (Qabs x))) * 2 ^ last_bit (Qabs x).
Proof.
  intros H. unfold binary64. cbv zeta.
  destruct (Qeq_bool x 0) eqn:E; [apply Qeq_bool_iff in E; contradiction |].
  set (q := last_bit (Qabs x)).
  set (m := round_half_even (Qabs x / 2 ^ q)).
  assert (Hm : (0 <= m)%Z).
  { apply round_half_even_nonneg. apply Qle_shift_div_l; [apply Qpower2_pos |].
    rewrite Qmult_0_l. apply Qabs_nonneg. }
  assert (Hv : 0 <= inject_Z m * 2 ^ q).
  { apply Qmult_le_0_compat; [| apply Qlt_le_weak, Qpower2_pos].
    change 0 with (inject_Z 0). rewrite <- Zle_Qle. exact Hm. }
  destruct (Qltb x 0).
  - rewrite Qabs_opp. apply Qabs_pos. exact Hv.
  - apply Qabs_pos. exact Hv.
Qed.

Lemma binary64_sign (x : Q) :
  binary64 x == (if Qltb x 0 then - Qabs (binary64 x) else Qabs (binary64 x)).
Proof.
  unfold binary64. cbv zeta.
  destruct (Qeq_bool x 0) eqn:E.
  { destruct (Qltb x 0); reflexivity. }
  set (q := last_bit (Qabs x)).
  set (m := round_half_even (Qabs x / 2 ^ q)).
  assert (Hm : (0 <= m)%Z).
  { apply round_half_even_nonneg. apply Qle_shift_div_l; [apply Qpower2_pos |].
    rewrite Qmult_0_l. apply Qabs_nonneg. }
  assert (Hv : 0 <= inject_Z m * 2 ^ q).
  { apply Qmult_le_0_compat; [| apply Qlt_le_weak, Qpower2_pos].
    change 0 with (inject_Z 0). rewrite <- Zle_Qle. exact Hm. }
  destruct (Qltb x 0).
  - rewrite Qabs_opp, (Qabs_pos _ Hv). reflexivity.
  - rewrite (Qabs_pos _ Hv). reflexivity.
Qed.

(** The value is a nearest one: it differs from the number by at most half
    the weight of its last bit. *)
Lemma binary64_nearest (x : Q) :
  ~ x == 0 ->
  Qabs (Qabs (binary64 x) - Qabs x) <= 2 ^ (last_bit (Qabs x) - 1).
Proof.
  intros Hnz. rewrite (binary64_abs x Hnz).
  set (q := last_bit (Qabs x)).
  pose proof (Qpower2_pos q) as Pq.
  pose proof (Qpower2_pos (q - 1)) as Pq1.
  assert (Hq : 2 ^ q == 2 * 2 ^ (q - 1)).
  { rewrite <- Qpower2_succ. replace (q - 1 + 1)%Z with q by lia. reflexivity. }
  assert (HX : Qabs x / 2 ^ q * 2 ^ q == Qabs x) by (field; Lqa.lra).
  set (X := Qabs x / 2 ^ q) in *.
  pose proof (round_half_even_nearest X) as Hn.
  apply Qabs_Qle_condition in Hn. destruct Hn as [Hn1 Hn2].
  set (k := inject_Z (round_half_even X)) in *.
  apply Qabs_Qle_condition. split.
  - assert (H : (X - (1 # 2)) * 2 ^ q <= k * 2 ^ q)
      by (apply Qmult_le_compat_r; Lqa.lra).
    Lqa.nra.
  - assert (H : k * 2 ^ q <= (X + (1 # 2)) * 2 ^ q)
      by (apply Qmult_le_compat_r; Lqa.lra).
    Lqa.nra.
Qed.

(** The conversion overflows from the midpoint between the largest binary64
    value, [2 ^ 1024 - 2 ^ 971], and [2 ^ 1024]. *)
Lemma binary64_overflow (x : Q) :
  2 ^ 1024 <= Qabs (binary64 x) <-> 2 ^ 1024 - 2 ^ 970 <= Qabs x.
Proof.
  assert (P970 : 0 < 2 ^ 970) by apply Qpower2_pos.
  assert (H971 : 2 ^ 971 == 2 * 2 ^ 970) by exact (Qpower2_succ 970).
  assert (H1024 : 2 ^ 1024 == inject_Z (2 ^ 53) * 2 ^ 971).
  { rewrite <- Qpower2_inject by lia. rewrite <- Qpower_plus by discriminate.
    reflexivity. }
  assert (H1023 : 2 ^ 1023 == inject_Z (2 ^ 52) * 2 ^ 971).
  { rewrite <- Qpower2_inject by lia. rewrite <- Qpower_plus by discriminate.
    reflexivity. }
  assert (E53 : inject_Z (2 ^ 53) == 2 * inject_Z (2 ^ 52)) by reflexivity.
  assert (P52 : 1 <= inject_Z (2 ^ 52)) by (unfold Qle; cbn; lia).
  destruct (Qeq_dec x 0) as [Hz | Hnz].
  { rewrite (binary64_zero x Hz). rewrite Hz. change (Qabs 0) with 0.
    split; intros H; exfalso; Lqa.nra. }
  rewrite (binary64_abs x Hnz).
  pose proof (Qabs_nonzero x Hnz) as Ha.
  set (a := Qabs x) in *.
  destruct (floor_log2_spec a Ha) as [Hlo Hhi].
  unfold last_bit. set (E := floor_log2 a) in *.
  set (q := Z.max (E - 52) (-1074)).
  pose proof (Qpower2_pos q) as Pq.
  assert (HX : a / 2 ^ q * 2 ^ q == a) by (field; Lqa.lra).
  set (X := a / 2 ^ q) in *.
  split.
  - intros Hr.
    destruct (Qlt_le_dec a (2 ^ 1024 - 2 ^ 970)) as [Hlt | Hge]; [| exact Hge].
    exfalso.
    assert (HE : (E < 1024)%Z).
    { apply (Qpower_lt_compat_l_inv 2); [| reflexivity].
      eapply Qle_lt_trans; [exact Hlo |]. Lqa.lra. }
    assert (Hq : 2 ^ q <= 2 ^ 971).
    { apply Qpower_le_compat_l; [lia | discriminate]. }
    pose proof (round_half_even_nearest X) as Hn.
    apply Qabs_Qle_condition in Hn.
    set (k := inject_Z (round_half_even X)) in *.
    assert (Hk : k * 2 ^ q <= (X + (1 # 2)) * 2 ^ q).
    { apply Qmult_le_compat_r; Lqa.lra. }
    Lqa.nra.
  - intros Hge.
    destruct (Z_lt_le_dec E 1024) as [HE | HE].
    + assert (HE' : E = 1023%Z).
      { assert (1023 < E + 1)%Z; [| lia].
        apply (Qpower_lt_compat_l_inv 2); [| reflexivity].
        eapply Qle_lt_trans; [| exact Hhi].
        eapply Qle_trans; [| exact Hge]. Lqa.nra. }
      assert (Eq : q = 971%Z) by lia.
      assert (Hk : (2 ^ 53 <= round_half_even X)%Z).
      { apply round_half_even_ge_half; [reflexivity |].
        apply (Qmult_le_r _ _ (2 ^ q) Pq). rewrite HX. rewrite Eq. Lqa.nra. }
      rewrite Zle_Qle in Hk. rewrite Eq in *.
      eapply Qle_trans; [| apply Qmult_le_compat_r; [exact Hk | Lqa.lra]].
      Lqa.lra.
    + assert (Eq : q = (E - 52)%Z) by lia.
      assert (HEs : 2 ^ E == inject_Z (2 ^ 52) * 2 ^ q).
      { rewrite <- Qpower2_inject by lia. rewrite <- Qpower_plus by discriminate.
        rewrite Eq. replace (52 + (E - 52))%Z with E by lia. reflexivity. }
      assert (Hk : (2 ^ 52 <= round_half_even X)%Z).
      { apply round_half_even_ge.
        apply (Qmult_le_r _ _ (2 ^ q) Pq). rewrite HX, <- HEs. exact Hlo. }
      rewrite Zle_Qle in Hk.
      assert (H1024E : 2 ^ 1024 <= 2 ^ E).
      { apply Qpower_le_compat_l; [exact HE | discriminate]. }
      eapply Qle_trans; [exact H1024E |]. rewrite HEs.
      apply Qmult_le_compat_r; [exact Hk | Lqa.lra].
Qed.

(** A number of at most 53 bits above the exponent -1074 is a binary64
    value, and the conversion leaves it as it is. *)
Lemma binary64_representable (x : Q) (m e : Z) :
  (Z.abs m < 2 ^ 53)%Z -> (-1074 <= e)%Z ->
  x == inject_Z m * 2 ^ e ->
  binary64 x == x.
Proof.
  intros Hm He Hx.
  pose proof (Qpower2_pos e) as Pe.
  destruct (Z.eq_dec m 0) as [Em | Em].
  { assert (Hz : x == 0) by (rewrite Hx, Em; ring).
    rewrite (binary64_zero x Hz), Hz. reflexivity. }
  assert (Hnz : ~ x == 0).
  { intros Hz. rewrite Hx in Hz.
    apply Qmult_integral in Hz. destruct Hz as [Hz | Hz]; [| Lqa.lra].
    apply Em. unfold Qeq in Hz. cbn in Hz. lia. }
  assert (Ha : Qabs x == inject_Z (Z.abs m) * 2 ^ e).
  { rewrite Hx, Qabs_Qmult. rewrite (Qabs_pos (2 ^ e)) by Lqa.lra.
    apply Qmult_comp; [| reflexivity]. unfold Qabs, inject_Z. reflexivity. }
  assert (Habs : Qabs (binary64 x) == Qabs x).
  { rewrite (binary64_abs x Hnz).
    set (L := Z.log2 (Z.abs m)).
    pose proof (Z.log2_spec (Z.abs m) ltac:(lia)) as [HL1 HL2]. fold L in HL1, HL2.
    pose proof (Z.log2_nonneg (Z.abs m)) as HL0. fold L in HL0.
    assert (HL : (L < 53)%Z).
    { apply (Z.pow_lt_mono_r_iff 2); lia. }
    rewrite Zle_Qle in HL1. rewrite Zlt_Qlt in HL2. unfold Z.succ in HL2.
    rewrite <- !Qpower2_inject in HL1, HL2 by lia.
    assert (HE : floor_log2 (Qabs x) = (L + e)%Z).
    { apply floor_log2_unique; rewrite Ha.
      - rewrite Qpower_plus by discriminate.
        apply Qmult_le_compat_r; [exact HL1 | Lqa.lra].
      - replace (L + e + 1)%Z with ((L + 1) + e)%Z by lia.
        rewrite Qpower_plus by discriminate.
        apply Qmult_lt_compat_r; [exact Pe | exact HL2]. }
    unfold last_bit. rewrite HE.
    set (q := Z.max (L + e - 52) (-1074)).
    assert (Hq : (q <= e)%Z) by lia.
    pose proof (Qpower2_pos q) as Pq.
    assert (Hs : 2 ^ e == inject_Z (2 ^ (e - q)) * 2 ^ q).
    { rewrite <- Qpower2_inject by lia. apply Qpower2_split. }
    assert (HX : Qabs x / 2 ^ q == inject_Z (Z.abs m * 2 ^ (e - q))).
    { rewrite Ha, Hs, inject_Z_mult. field. Lqa.lra. }
    rewrite (round_half_even_comp _ _ HX), round_half_even_inject.
    rewrite Ha, Hs, inject_Z_mult. ring. }
  rewrite (binary64_sign x).
  destruct (Qltb x 0) eqn:E; rewrite Habs.
  - apply Qltb_lt in E. rewrite (Qabs_neg x) by Lqa.lra. ring.
  - apply Qltb_ge in E. rewrite (Qabs_pos x) by exact E. reflexivity.
Qed.

Lemma format_fixed_comp (x y : Q) (n : nat) :
  x == y -> format_fixed x n = format_fixed y n.
Proof.
  intros H. unfold format_fixed. cbv zeta.
  assert (E1 : round_half_even (Qabs x * inject_Z (10 ^ Z.of_nat n))
               = round_half_even (Qabs y * inject_Z (10 ^ Z.of_nat n))).
  { apply round_half_even_comp. rewrite H. reflexivity. }
  assert (E2 : Qltb x 0 = Qltb y 0).
  { unfold Qltb. f_equal.
    destruct (Qle_bool 0 x) eqn:Ex; destruct (Qle_bool 0 y) eqn:Ey; try reflexivity.
    - apply Qle_bool_iff in Ex. rewrite H in Ex. apply Qle_bool_iff in Ex. congruence.
    - apply Qle_bool_iff in Ey. rewrite <- H in Ey. apply Qle_bool_iff in Ey. congruence. }
  rewrite E1, E2. reflexivity.
Qed.

(** ** Positions that are not rationals *)

(** A finite position, and -0.0 as 0, are looked up as the rational. *)
Lemma position_find_active_loop_finite (q : Q) (l : list subsection) :
  forall active,
    Position.find_active_loop (Finite q) l active = find_active_loop q l active.
Proof.
  induction l as [| s l IH]; intros active; cbn [Position.find_active_loop find_active_loop];
    [reflexivity |].
  cbn [Position.ge]. rewrite IH. reflexivity.
Qed.

Lemma position_get_decimal_places_finite (self : ScalePrecisionCalculator) (q : Q) :
  Position.get_decimal_places self (Finite q) = get_decimal_places self q.
Proof.
  unfold Position.get_decimal_places, get_decimal_places,
    Position._find_active_subsection, _find_active_subsection.
  rewrite position_find_active_loop_finite. reflexivity.
Qed.

Lemma position_find_active_loop_zero (l : list subsection) :
  forall active,
    Position.find_active_loop NegativeZero l active = find_active_loop 0 l active.
Proof.
  induction l as [| s l IH]; intros active; cbn [Position.find_active_loop find_active_loop];
    [reflexivity |].
  cbn [Position.ge]. rewrite IH. reflexivity.
Qed.

Lemma position_get_decimal_places_zero (self : ScalePrecisionCalculator) :
  Position.get_decimal_places self NegativeZero = get_decimal_places self 0.
Proof.
  unfold Position.get_decimal_places, get_decimal_places,
    Position._find_active_subsection, _find_active_subsection.
  rewrite position_find_active_loop_zero. reflexivity.
Qed.

(** An infinite position is out of bounds, and [nan] passes the bounds check
    but stops the scan at once: both get the default. *)
Lemma position_get_decimal_places_infinity (self : ScalePrecisionCalculator)
    (negative : bool) :
  Position.get_decimal_places self (Infinity negative) = Returns 2%Z.
Proof.
  unfold Position.get_decimal_places. cbn [Position.lt Position.gt].
  destruct negative; reflexivity.
Qed.

Lemma position_get_decimal_places_nan (self : ScalePrecisionCalculator) :
  Position.get_decimal_places self NaN = Returns 2%Z.
Proof.
  unfold Position.get_decimal_places, Position._find_active_subsection.
  cbn [Position.lt Position.gt orb].
  destruct (subsections self) as [| s l]; reflexivity.
Qed.

Lemma position_get_decimal_places_range (self : ScalePrecisionCalculator)
    (position : number) (n : Z) :
  Position.get_decimal_places self position = Returns n -> (1 <= n <= 5)%Z.
Proof.
  destruct position as [q | | negative |].
  - rewrite position_get_decimal_places_finite. apply get_decimal_places_range.
  - rewrite position_get_decimal_places_zero. apply get_decimal_places_range.
  - rewrite position_get_decimal_places_infinity. intros H. injection H as <-. lia.
  - rewrite position_get_decimal_places_nan. intros H. injection H as <-. lia.
Qed.

(** ** The formatted value *)

Lemma float_overflow (q : Q) :
  float q = if Qle_bool (2 ^ 1024 - 2 ^ 970) (Qabs q)
            then Raises OverflowError else Returns (binary64 q).
Proof.
  unfold float.
  destruct (Qle_bool (2 ^ 1024) (Qabs (binary64 q))) eqn:E1;
    destruct (Qle_bool (2 ^ 1024 - 2 ^ 970) (Qabs q)) eqn:E2; try reflexivity; exfalso.
  - pose proof (proj2 (Qle_bool_iff _ _)
                  (proj1 (binary64_overflow q) (proj1 (Qle_bool_iff _ _) E1))) as H.
    rewrite E2 in H. discriminate H.
  - pose proof (proj2 (Qle_bool_iff _ _)
                  (proj2 (binary64_overflow q) (proj1 (Qle_bool_iff _ _) E2))) as H.
    rewrite E1 in H. discriminate H.
Qed.

Lemma format_position_finite (q : Q) (n : nat) :
  format_position (Finite q) n
  = if Qle_bool (2 ^ 1024 - 2 ^ 970) (Qabs q)
    then Raises OverflowError else Returns (format_fixed (binary64 q) n).
Proof.
  cbn [format_position]. rewrite float_overflow.
  destruct (Qle_bool (2 ^ 1024 - 2 ^ 970) (Qabs q)); reflexivity.
Qed.

(** The position [10 ^ 400], an [int] beyond the scale, gets the default of
    2 decimal places and cannot be formatted: its conversion to binary64
    overflows. *)
Lemma formatted_value_claim_fails :
  ~ (forall (self : ScalePrecisionCalculator) (position : Q) (n : Z),
        get_decimal_places self position = Returns n ->
        get_formatted_value self (Finite position)
        = Returns (format_fixed position (Z.to_nat n))).
Proof.
  intros H.
  specialize (H create_c_scale_calculator (10 ^ 400) 2%Z eq_refl).
  vm_compute in H. discriminate H.
Qed.

(** An [int] of more than 53 bits is formatted as the binary64 value next to
    it, not as itself. *)
Example formatted_value_large_int :
  get_formatted_value create_c_scale_calculator (Finite 9007199254740993)
  = Returns "9007199254740992.00"%string /\
  format_fixed 9007199254740993 2 = "9007199254740993.00"%string.
Proof. split; vm_compute; reflexivity. Qed.

(** C8 (amended): [get_formatted_value] raises what [get_decimal_places]
    raises.  Otherwise, with [n] the decimal places of the position: a finite
    position of magnitude [2 ^ 1024 - 2 ^ 970] or more (an [int]) raises
    [OverflowError]; any other finite position yields the fixed-point text of
    its binary64 value with exactly [n] fractional digits (the sign, the
    integer digits, the point and [n] digits, which read as the magnitude
    scaled by [10 ^ n] and rounded to nearest), and that value is the
    position itself when the position is a binary64 value, so a [float] or
    an [int] of at most 53 bits; -0.0 yields the text of 0 with a minus sign;
    an infinity and [nan] yield their names. *)
Theorem get_formatted_value_spec (self : ScalePrecisionCalculator) (position : number) :
  match Position.get_decimal_places self position with
  | Raises e => get_formatted_value self position = Raises e
  | Returns n =>
      match position with
      | Finite q =>
          if Qle_bool (2 ^ 1024 - 2 ^ 970) (Qabs q)
          then get_formatted_value self position = Raises OverflowError
          else
            get_formatted_value self position
            = Returns (format_fixed (binary64 q) (Z.to_nat n)) /\
            (forall m e : Z,
                (Z.abs m < 2 ^ 53)%Z -> (-1074 <= e)%Z -> q == inject_Z m * 2 ^ e ->
                format_fixed (binary64 q) (Z.to_nat n) = format_fixed q (Z.to_nat n)) /\
            exists ipart fpart : string,
              format_fixed (binary64 q) (Z.to_nat n)
              = ((if Qltb (binary64 q) 0 then "-" else "")
                 ++ ipart ++ String "." fpart)%string /\
              String.length fpart = Z.to_nat n /\
              after_point ipart = None /\
              Qabs (inject_Z (digits_value (digits_value 0 ipart) fpart)
                    - Qabs (binary64 q) * inject_Z (10 ^ n)) <= 1 # 2
      | NegativeZero =>
          get_formatted_value self position
          = Returns ("-" ++ format_fixed 0 (Z.to_nat n))%string
      | Infinity negative =>
          get_formatted_value self position
          = Returns (if negative then "-inf" else "inf")%string
      | NaN => get_formatted_value self position = Returns "nan"%string
      end
  end.
Proof.
  unfold get_formatted_value.
  destruct (Position.get_decimal_places self position) as [n | e] eqn:E;
    cbn [bind]; [| reflexivity].
  apply position_get_decimal_places_range in E.
  destruct position as [q | | negative |]; try reflexivity.
  rewrite format_position_finite.
  destruct (Qle_bool (2 ^ 1024 - 2 ^ 970) (Qabs q)); [reflexivity |].
  split; [reflexivity |]. split.
  - intros m e Hm He Hq. apply format_fixed_comp.
    exact (binary64_representable q m e Hm He Hq).
  - destruct (Z.to_nat n) as [| k] eqn:Ek; [lia |].
    replace n with (Z.of_nat (S k)) by lia.
    apply format_fixed_reads_back.
Qed.

Lemma get_formatted_value_spec_witness :
  (Z.abs 5 < 2 ^ 53)%Z /\ (-1074 <= -1)%Z /\ 2.5 == inject_Z 5 * 2 ^ (-1) /\
  get_formatted_value create_c_scale_calculator (Finite 2.5) = Returns "2.500"%string /\
  format_fixed (binary64 2.5) 3 = format_fixed 2.5 3.
Proof.
  assert (H1 : (Z.abs 5 < 2 ^ 53)%Z) by reflexivity.
  assert (H2 : (-1074 <= -1)%Z) by discriminate.
  assert (H3 : 2.5 == inject_Z 5 * 2 ^ (-1)) by reflexivity.
  pose proof (get_formatted_value_spec create_c_scale_calculator (Finite 2.5)) as H.
  assert (E : Position.get_decimal_places create_c_scale_calculator (Finite 2.5)
              = Returns 3%Z) by reflexivity.
  rewrite E in H.
  assert (E' : Qle_bool (2 ^ 1024 - 2 ^ 970) (Qabs 2.5) = false) by (vm_compute; reflexivity).
  rewrite E' in H. destruct H as (Hv & Hr & _).
  split; [exact H1 |]. split; [exact H2 |]. split; [exact H3 |].
  split; [rewrite Hv; vm_compute; reflexivity |].
  exact (Hr 5%Z (-1)%Z H1 H2 H3).
Defined.

(** * Further properties of the code *)

Lemma Qle_bool_false (a b : Q) : Qle_bool a b = false <-> b < a.
Proof.
  split.
  - intros H. apply Qnot_le_lt. intros Hle. apply Qle_bool_iff in Hle. congruence.
  - intros H. destruct (Qle_bool a b) eqn:E; [| reflexivity].
    apply Qle_bool_iff in E. exfalso. exact (Qlt_not_le _ _ H E).
Qed.

Ltac cmp_case :=
  match goal with
  | |- context [Qle_bool ?a ?b] =>
      let E := fresh "E" in
      destruct (Qle_bool a b) eqn:E;
      [apply Qle_bool_iff in E | apply Qle_bool_false in E]
  end.

Ltac cmp_cases := repeat (cmp_case; cbn [negb orb andb]); try reflexivity; try (exfalso; Lqa.lra).

(** ** The constructor *)

Lemma insert_by_beginsub_head (s : subsection) (l : list subsection) :
  Forall (le_beginsub s) l -> insert_by_beginsub s l = s :: l.
Proof.
  destruct 1 as [| t l Ht _]; [reflexivity |].
  cbn [insert_by_beginsub]. apply Qle_bool_iff in Ht. rewrite Ht. reflexivity.
Qed.

Lemma sort_by_beginsub_sorted_id (l : list subsection) :
  StronglySorted le_beginsub l -> sort_by_beginsub l = l.
Proof.
  induction 1 as [| s l Hs IH Hl]; [reflexivity |].
  cbn [sort_by_beginsub fold_right]. fold (sort_by_beginsub l).
  rewrite IH. apply insert_by_beginsub_head. exact Hl.
Qed.

(** X1: the constructor keeps the bounds and leaves the sub-ranges in
    ascending order of [beginsub]: the same entries as in the input, those
    that start at the same value in their input order. *)
Theorem init_sorts (definition : scale_definition) :
  StronglySorted le_beginsub (subsections (__init__ definition)) /\
  Permutation (subsections (__init__ definition)) (sd_subsections definition) /\
  (forall k : Q,
      filter (fun s => Qeq_bool (beginsub s) k) (subsections (__init__ definition))
      = filter (fun s => Qeq_bool (beginsub s) k) (sd_subsections definition)) /\
  beginscale (__init__ definition) = sd_beginscale definition /\
  endscale (__init__ definition) = sd_endscale definition.
Proof.
  cbn [__init__ subsections beginscale endscale].
  split; [apply sort_by_beginsub_sorted |].
  split; [apply sort_by_beginsub_perm |].
  split; [intros k; apply sort_by_beginsub_stable |].
  split; reflexivity.
Qed.

(** X2: a list of sub-ranges that is already in ascending order of
    [beginsub] is left as it is by the constructor. *)
Theorem init_keeps_ascending (definition : scale_definition) :
  StronglySorted le_beginsub (sd_subsections definition) ->
  subsections (__init__ definition) = sd_subsections definition.
Proof.
  intros H. cbn [__init__ subsections]. apply sort_by_beginsub_sorted_id. exact H.
Qed.

Lemma k_scale_ascending :
  StronglySorted le_beginsub (sd_subsections k_scale_definition).
Proof.
  repeat (constructor;
          [| repeat (constructor; [unfold le_beginsub, Qle; simpl; lia |]);
             constructor]).
  constructor.
Defined.

Lemma init_keeps_ascending_witness :
  StronglySorted le_beginsub (sd_subsections k_scale_definition) /\
  subsections (__init__ k_scale_definition) = sd_subsections k_scale_definition.
Proof.
  split; [exact k_scale_ascending |].
  exact (init_keeps_ascending k_scale_definition k_scale_ascending).
Defined.

(** X3: the constructor sorts the caller's list in place: afterwards the
    definition holds the calculator's sorted list, its other keys are
    unchanged, and constructing again from it gives an equal calculator. *)
Theorem init_in_place_effect (definition : scale_definition) :
  let (self, after) := init_in_place definition in
  sd_subsections after = subsections self /\
  StronglySorted le_beginsub (sd_subsections after) /\
  Permutation (sd_subsections after) (sd_subsections definition) /\
  sd_beginscale after = sd_beginscale definition /\
  sd_endscale after = sd_endscale definition /\
  sd_xfactor after = sd_xfactor definition /\
  __init__ after = self.
Proof.
  unfold init_in_place. cbv beta iota zeta.
  unfold __init__, with_subsections.
  cbn [sd_subsections sd_beginscale sd_endscale sd_xfactor subsections].
  split; [reflexivity |].
  split; [apply sort_by_beginsub_sorted |].
  split; [apply sort_by_beginsub_perm |].
  repeat (split; [reflexivity |]).
  rewrite (sort_by_beginsub_sorted_id _ (sort_by_beginsub_sorted _)). reflexivity.
Qed.

(** ** More on the sub-range lookup *)

Lemma find_active_loop_greatest (position : Q) (l : list subsection) :
  StronglySorted le_beginsub l ->
  forall active s,
    find_active_loop position l active = Some s ->
    (In s l /\ beginsub s <= position /\
     forall t, In t l -> beginsub t <= position -> beginsub t <= beginsub s) \/
    (active = Some s /\ forall t, In t l -> position < beginsub t).
Proof.
  induction 1 as [| a l Hs IH Ha]; intros active s; cbn [find_active_loop].
  - intros H. right. split; [exact H | intros t []].
  - rewrite Forall_forall in Ha. unfold Qgeb.
    destruct (Qle_bool (beginsub a) position) eqn:E.
    + apply Qle_bool_iff in E. intros H. left.
      destruct (IH _ _ H) as [(Hin & Hq & Hmax) | (Heq & Hnone)].
      * split; [right; exact Hin |]. split; [exact Hq |].
        intros t [<- | Ht] Hle; [apply Ha; exact Hin | apply Hmax; assumption].
      * injection Heq as <-. split; [left; reflexivity |]. split; [exact E |].
        intros t [<- | Ht] Hle; [apply Qle_refl |].
        exfalso. exact (Qlt_not_le _ _ (Hnone t Ht) Hle).
    + apply Qle_bool_false in E. intros H. right. split; [exact H |].
      intros t [<- | Ht]; [exact E |].
      eapply Qlt_le_trans; [exact E | apply Ha; exact Ht].
Qed.

Lemma find_active_loop_none (position : Q) (l : list subsection) :
  StronglySorted le_beginsub l ->
  forall active,
    find_active_loop position l active = None ->
    active = None /\ forall t, In t l -> position < beginsub t.
Proof.
  induction 1 as [| a l Hs IH Ha]; intros active; cbn [find_active_loop].
  - intros H. split; [exact H | intros t []].
  - rewrite Forall_forall in Ha. unfold Qgeb.
    destruct (Qle_bool (beginsub a) position) eqn:E.
    + intros H. destruct (IH _ H) as [Habs _]. discriminate Habs.
    + apply Qle_bool_false in E. intros H. split; [exact H |].
      intros t [<- | Ht]; [exact E |].
      eapply Qlt_le_trans; [exact E | apply Ha; exact Ht].
Qed.

Lemma init_In (definition : scale_definition) (s : subsection) :
  In s (subsections (__init__ definition)) <-> In s (sd_subsections definition).
Proof.
  cbn [__init__ subsections].
  split; apply Permutation_in;
    [| apply Permutation_sym]; apply sort_by_beginsub_perm.
Qed.

Lemma active_greatest (definition : scale_definition) (position : Q) (s : subsection) :
  _find_active_subsection (__init__ definition) position = Some s ->
  In s (sd_subsections definition) /\ beginsub s <= position /\
  forall t, In t (sd_subsections definition) ->
            beginsub t <= position -> beginsub t <= beginsub s.
Proof.
  unfold _find_active_subsection. intros H.
  apply find_active_loop_greatest in H;
    [| cbn [__init__ subsections]; apply sort_by_beginsub_sorted].
  destruct H as [(Hin & Hq & Hmax) | (Habs & _)]; [| discriminate Habs].
  split; [apply init_In; exact Hin |]. split; [exact Hq |].
  intros t Ht. apply Hmax. apply init_In. exact Ht.
Qed.

Lemma active_none (definition : scale_definition) (position : Q) :
  _find_active_subsection (__init__ definition) position = None ->
  forall t, In t (sd_subsections definition) -> position < beginsub t.
Proof.
  unfold _find_active_subsection. intros H t Ht.
  apply find_active_loop_none in H;
    [| cbn [__init__ subsections]; apply sort_by_beginsub_sorted].
  destruct H as [_ H]. apply H. apply init_In. exact Ht.
Qed.

(** X4: on a constructed calculator the active sub-range is an entry of the
    configuration that starts at or before the position, and none that does
    so starts later; no sub-range is found exactly when every entry starts
    after the position. *)
Theorem find_active_subsection_greatest (definition : scale_definition) (position : Q) :
  match _find_active_subsection (__init__ definition) position with
  | Some s =>
      In s (sd_subsections definition) /\
      beginsub s <= position /\
      forall t, In t (sd_subsections definition) ->
                beginsub t <= position -> beginsub t <= beginsub s
  | None =>
      forall t, In t (sd_subsections definition) -> position < beginsub t
  end.
Proof.
  destruct (_find_active_subsection (__init__ definition) position) as [s |] eqn:E.
  - apply active_greatest. exact E.
  - apply active_none. exact E.
Qed.

(** X5: the active sub-range moves forward with the position: a later
    position has an active sub-range too, and it does not start earlier. *)
Theorem find_active_subsection_monotone
    (definition : scale_definition) (p q : Q) (s : subsection) :
  p <= q ->
  _find_active_subsection (__init__ definition) p = Some s ->
  exists t,
    _find_active_subsection (__init__ definition) q = Some t /\
    beginsub s <= beginsub t.
Proof.
  intros Hpq Hp. apply active_greatest in Hp. destruct Hp as (Hin & Hs & _).
  assert (Hsq : beginsub s <= q) by (eapply Qle_trans; eassumption).
  destruct (_find_active_subsection (__init__ definition) q) as [t |] eqn:E.
  - exists t. split; [reflexivity |].
    apply active_greatest in E. destruct E as (_ & _ & Hmax).
    apply Hmax; assumption.
  - exfalso. exact (Qlt_not_le _ _ (active_none _ _ E s Hin) Hsq).
Qed.

Lemma find_active_subsection_monotone_witness :
  1.5 <= 7 /\
  _find_active_subsection (__init__ c_scale_definition) 1.5
  = Some (sub 1 (Some 1) (Some 0.1) (Some 0.05) (Some 0.01)) /\
  exists t,
    _find_active_subsection (__init__ c_scale_definition) 7 = Some t /\
    beginsub (sub 1 (Some 1) (Some 0.1) (Some 0.05) (Some 0.01)) <= beginsub t.
Proof.
  assert (H1 : 1.5 <= 7) by (unfold Qle; simpl; lia).
  assert (H2 : _find_active_subsection (__init__ c_scale_definition) 1.5
               = Some (sub 1 (Some 1) (Some 0.1) (Some 0.05) (Some 0.01)))
    by reflexivity.
  split; [exact H1 |]. split; [exact H2 |].
  exact (find_active_subsection_monotone c_scale_definition 1.5 7 _ H1 H2).
Defined.

Lemma find_active_loop_break (position : Q) (t : subsection)
    (pre post : list subsection) :
  position < beginsub t ->
  forall active,
    find_active_loop position (pre ++ t :: post) active
    = find_active_loop position pre active.
Proof.
  intros Ht. induction pre as [| a pre IH]; intros active.
  - cbn [app find_active_loop]. apply Qgeb_lt in Ht. rewrite Ht. reflexivity.
  - cbn [app find_active_loop]. destruct (Qgeb position (beginsub a)).
    + apply IH.
    + reflexivity.
Qed.

(** X6: the lookup stops at the first entry that starts after the position:
    that entry and everything listed after it play no part, whatever they
    are. *)
Theorem find_active_subsection_stops (position : Q) (t : subsection)
    (pre post : list subsection) (b e x : Q) :
  position < beginsub t ->
  _find_active_subsection
    {| subsections := pre ++ t :: post; beginscale := b; endscale := e; xfactor := x |}
    position
  = _find_active_subsection
      {| subsections := pre; beginscale := b; endscale := e; xfactor := x |}
      position.
Proof.
  intros Ht. unfold _find_active_subsection. cbn [subsections].
  apply find_active_loop_break. exact Ht.
Qed.

Lemma find_active_subsection_stops_witness :
  3 < beginsub (sub 10 (Some 10) (Some 1) (Some 0.5) (Some 0.1)) /\
  _find_active_subsection
    {| subsections := [sub 1 (Some 1) (Some 0.1) (Some 0.05) (Some 0.01)]
                      ++ sub 10 (Some 10) (Some 1) (Some 0.5) (Some 0.1)
                      :: [sub 2 (Some 1) (Some 0.5) (Some 0.1) (Some 0.02)];
       beginscale := 1; endscale := 10; xfactor := 100 |} 3
  = _find_active_subsection
      {| subsections := [sub 1 (Some 1) (Some 0.1) (Some 0.05) (Some 0.01)];
         beginscale := 1; endscale := 10; xfactor := 100 |} 3.
Proof.
  assert (H : 3 < beginsub (sub 10 (Some 10) (Some 1) (Some 0.5) (Some 0.1)))
    by reflexivity.
  split; [exact H |].
  exact (find_active_subsection_stops 3 _ _ _ 1 10 100 H).
Defined.

(** ** More on the finest interval *)

Lemma sorted_app_before {A : Type} (R : A -> A -> Prop) (pre post : list A) (x : A) :
  StronglySorted R (pre ++ x :: post) -> Forall (fun a => R a x) pre.
Proof.
  induction pre as [| a pre IH]; cbn [app]; intros H; [constructor |].
  inversion H as [| ? ? Hs Ha]; subst. constructor.
  - rewrite Forall_forall in Ha. apply Ha. apply in_or_app. right. left. reflexivity.
  - apply IH. exact Hs.
Qed.

Lemma get_smallest_interval_descending (s : subsection) (v : Q) :
  descending_tiers (intervals s) ->
  _get_smallest_interval s = Some v ->
  forall w, In (Some w) (intervals s) -> v <= w.
Proof.
  unfold descending_tiers, _get_smallest_interval. intros Hd Hv w Hw.
  destruct (first_not_none_rev (intervals s))
    as [(pre & v' & post & Hl & Hpost & Hr) | [_ Hr]]; [| congruence].
  assert (v' = v) by congruence. subst v'.
  rewrite Hl in Hd, Hw. apply in_app_or in Hw. destruct Hw as [Hw | [Hw | Hw]].
  - apply sorted_app_before in Hd. rewrite Forall_forall in Hd.
    exact (Hd _ Hw w v eq_refl eq_refl).
  - injection Hw as <-. apply Qle_refl.
  - rewrite Forall_forall in Hpost. specialize (Hpost _ Hw). discriminate Hpost.
Qed.

Ltac tier_order :=
  let v := fresh "v" in
  let w := fresh "w" in
  let Hv := fresh "Hv" in
  let Hw := fresh "Hw" in
  intros v w Hv Hw;
  first [discriminate Hv | discriminate Hw
        | injection Hv as <-; injection Hw as <-; unfold Qle; simpl; lia].

Ltac descending :=
  unfold descending_tiers; cbn [sub intervals];
  repeat first [apply SSorted_nil | apply SSorted_cons
               | apply Forall_nil | apply Forall_cons | tier_order].

Ltac all_descending :=
  repeat (apply Forall_cons; [descending |]); apply Forall_nil.

(** X7: when the tiers of a sub-range do not grow from coarse to fine, the
    interval returned is the smallest one of the sub-range; and in each of
    the three sample scales the tiers of every sub-range do not grow. *)
Theorem get_smallest_interval_least :
  (forall (s : subsection) (v : Q),
      descending_tiers (intervals s) ->
      _get_smallest_interval s = Some v ->
      forall w, In (Some w) (intervals s) -> v <= w) /\
  Forall (fun s => descending_tiers (intervals s)) (sd_subsections c_scale_definition) /\
  Forall (fun s => descending_tiers (intervals s)) (sd_subsections ll00_scale_definition) /\
  Forall (fun s => descending_tiers (intervals s)) (sd_subsections k_scale_definition).
Proof.
  split; [exact get_smallest_interval_descending |].
  cbn [sd_subsections c_scale_definition ll00_scale_definition k_scale_definition].
  split; [all_descending |]. split; all_descending.
Qed.

Lemma get_smallest_interval_least_witness :
  descending_tiers (intervals (sub 3 (Some 1) None (Some 0.5) (Some 0.1))) /\
  _get_smallest_interval (sub 3 (Some 1) None (Some 0.5) (Some 0.1)) = Some 0.1 /\
  forall w, In (Some w) (intervals (sub 3 (Some 1) None (Some 0.5) (Some 0.1))) -> 0.1 <= w.
Proof.
  assert (Hd : descending_tiers (intervals (sub 3 (Some 1) None (Some 0.5) (Some 0.1))))
    by descending.
  assert (Hv : _get_smallest_interval (sub 3 (Some 1) None (Some 0.5) (Some 0.1))
               = Some 0.1) by reflexivity.
  split; [exact Hd |]. split; [exact Hv |].
  exact (proj1 get_smallest_interval_least _ _ Hd Hv).
Defined.

(** ** More on the conversion *)

(** Between the thresholds of two consecutive decades the rounded floor is
    constant. *)
Lemma rounded_floor_log10_between (x : Q) (k : Z) :
  0 < x ->
  10 ^ (k - 1) <= rounding_threshold k ->
  rounding_threshold k < x ->
  x <= rounding_threshold (k + 1) ->
  x < 10 ^ (k + 1) ->
  rounded_floor_log10 x = k.
Proof.
  intros Hpos HT Hlo Hhi Hlt.
  destruct (floor_log10_spec x Hpos) as [Hd1 Hd2].
  assert (H1 : (k - 1 < floor_log10 x + 1)%Z).
  { apply (Qpower_lt_compat_l_inv 10); [| reflexivity].
    eapply Qle_lt_trans; [exact HT |].
    eapply Qlt_trans; [exact Hlo | exact Hd2]. }
  assert (H2 : (floor_log10 x < k + 1)%Z).
  { apply (Qpower_lt_compat_l_inv 10); [| reflexivity].
    eapply Qle_lt_trans; [exact Hd1 | exact Hlt]. }
  destruct (Z.eq_dec (floor_log10 x) k) as [E | E].
  - rewrite rounded_floor_log10_below; [exact E |]. rewrite E. exact Hhi.
  - assert (E' : (floor_log10 x + 1 = k)%Z) by lia.
    rewrite rounded_floor_log10_above; [exact E' |]. rewrite E'. exact Hlo.
Qed.

(** X8: the conversion in closed form: it raises for an interval of at most
    0, and otherwise answers by thresholds: 1 from 1 on, 2 above the
    threshold of 0.1, 3 above the threshold of 0.01, 4 above the threshold of
    0.001, and 5 from there down.  Each threshold lies a few binary64 values
    below its power of ten. *)
Theorem interval_to_decimal_places_table (interval : Q) :
  _interval_to_decimal_places interval
  = (if Qle_bool interval 0 then Raises ValueError
     else if Qle_bool 1 interval then Returns 1%Z
     else if Qltb (rounding_threshold (-1)) interval then Returns 2%Z
     else if Qltb (rounding_threshold (-2)) interval then Returns 3%Z
     else if Qltb (rounding_threshold (-3)) interval then Returns 4%Z
     else Returns 5%Z) /\
  (0.09999999999999996 < rounding_threshold (-1) /\
   rounding_threshold (-1) < 0.09999999999999998) /\
  (0.009999999999999993 < rounding_threshold (-2) /\
   rounding_threshold (-2) < 0.009999999999999995) /\
  (0.0009999999999999994 < rounding_threshold (-3) /\
   rounding_threshold (-3) < 0.0009999999999999996).
Proof.
  split; [| repeat split; reflexivity].
  destruct (Qle_bool interval 0) eqn:E0.
  { apply interval_to_decimal_places_raises. apply Qle_bool_iff. exact E0. }
  apply Qle_bool_false in E0.
  destruct (Qle_bool 1 interval) eqn:E1.
  { apply interval_to_decimal_places_ge1. apply Qle_bool_iff. exact E1. }
  apply Qle_bool_false in E1.
  rewrite (interval_to_decimal_places_lt1 interval E0 E1).
  assert (HT0 : rounding_threshold (-1 + 1) == 1) by reflexivity.
  destruct (Qltb (rounding_threshold (-1)) interval) eqn:E2.
  { apply Qltb_lt in E2.
    rewrite (rounded_floor_log10_between interval (-1)); try reflexivity; try assumption.
    - unfold Qle; vm_compute; discriminate.
    - rewrite HT0. apply Qlt_le_weak. exact E1. }
  apply Qltb_ge in E2.
  destruct (Qltb (rounding_threshold (-2)) interval) eqn:E3.
  { apply Qltb_lt in E3.
    rewrite (rounded_floor_log10_between interval (-2)); try reflexivity; try assumption.
    - unfold Qle; vm_compute; discriminate.
    - eapply Qle_lt_trans; [exact E2 | reflexivity]. }
  apply Qltb_ge in E3.
  destruct (Qltb (rounding_threshold (-3)) interval) eqn:E4.
  { apply Qltb_lt in E4.
    rewrite (rounded_floor_log10_between interval (-3)); try reflexivity; try assumption.
    - unfold Qle; vm_compute; discriminate.
    - eapply Qle_lt_trans; [exact E3 | reflexivity]. }
  apply Qltb_ge in E4. rename E4 into H4.
  destruct (floor_log10_spec interval E0) as [Hlo _].
  assert (Hd : (floor_log10 interval < -3)%Z).
  { apply (Qpower_lt_compat_l_inv 10); [| reflexivity].
    eapply Qle_lt_trans; [exact Hlo |].
    eapply Qle_lt_trans; [exact H4 | reflexivity]. }
  assert (Hr : (rounded_floor_log10 interval <= -4)%Z).
  { destruct (Z.eq_dec (floor_log10 interval) (-4)) as [E | E].
    - rewrite rounded_floor_log10_below; [lia |]. rewrite E. exact H4.
    - destruct (rounded_floor_log10_cases interval) as [Er | Er]; lia. }
  f_equal. lia.
Qed.

Lemma floor_log10_monotone (a b : Q) :
  0 < a -> a <= b -> (floor_log10 a <= floor_log10 b)%Z.
Proof.
  intros Ha Hab.
  assert (Hb : 0 < b) by (eapply Qlt_le_trans; eassumption).
  destruct (floor_log10_spec a Ha) as [Hlo _].
  destruct (floor_log10_spec b Hb) as [_ Hhi].
  assert (H : (floor_log10 a < floor_log10 b + 1)%Z).
  { apply (Qpower_lt_compat_l_inv 10); [| reflexivity].
    eapply Qle_lt_trans; [exact Hlo |].
    eapply Qle_lt_trans; [exact Hab | exact Hhi]. }
  lia.
Qed.

(** X9: a finer interval never gets fewer decimal places: for positive
    intervals the conversion is antitone. *)
Theorem interval_to_decimal_places_antitone (a b : Q) :
  0 < a -> a <= b ->
  exists m n : Z,
    _interval_to_decimal_places a = Returns m /\
    _interval_to_decimal_places b = Returns n /\
    (n <= m)%Z.
Proof.
  intros Ha Hab.
  assert (Hb : 0 < b) by (eapply Qlt_le_trans; eassumption).
  destruct (Qlt_le_dec b 1) as [Hb1 | Hb1].
  - assert (Ha1 : a < 1) by (eapply Qle_lt_trans; eassumption).
    pose proof (rounded_floor_log10_monotone a b Ha Hab) as Hm.
    do 2 eexists.
    split; [apply interval_to_decimal_places_lt1; assumption |].
    split; [apply interval_to_decimal_places_lt1; assumption |]. lia.
  - destruct (interval_to_decimal_places_returns a Ha) as (m & Hm & Hr).
    exists m, 1%Z. split; [exact Hm |].
    split; [apply interval_to_decimal_places_ge1; exact Hb1 | lia].
Qed.

Lemma interval_to_decimal_places_antitone_witness :
  0 < 0.002 /\ 0.002 <= 0.5 /\
  exists m n : Z,
    _interval_to_decimal_places 0.002 = Returns m /\
    _interval_to_decimal_places 0.5 = Returns n /\
    (n <= m)%Z.
Proof.
  assert (H1 : 0 < 0.002) by reflexivity.
  assert (H2 : 0.002 <= 0.5) by (unfold Qle; simpl; lia).
  split; [exact H1 |]. split; [exact H2 |].
  exact (interval_to_decimal_places_antitone 0.002 0.5 H1 H2).
Defined.

(** ** Outcomes of [get_decimal_places] *)

Lemma in_bounds_iff (self : ScalePrecisionCalculator) (position : Q) :
  Qltb position (beginscale self) || Qltb (endscale self) position = false
  <-> beginscale self <= position /\ position <= endscale self.
Proof.
  rewrite orb_false_iff. unfold Qltb. rewrite !negb_false_iff, !Qle_bool_iff.
  reflexivity.
Qed.

Lemma interval_to_decimal_places_raises_iff (interval : Q) :
  _interval_to_decimal_places interval = Raises ValueError <-> interval <= 0.
Proof.
  split.
  - intros H. destruct (Qlt_le_dec 0 interval) as [Hpos | Hle]; [| exact Hle].
    destruct (interval_to_decimal_places_returns interval Hpos) as (n & Hn & _).
    congruence.
  - intros H. exact (interval_to_decimal_places_raises interval H).
Qed.

(** The only exception of the lookup is the [ValueError] of [math.log10]. *)
Lemma interval_to_decimal_places_raises_only (interval : Q) (e : exn) :
  _interval_to_decimal_places interval = Raises e -> e = ValueError.
Proof.
  unfold _interval_to_decimal_places, math_floor_log10.
  destruct (Qgeb interval 1); [discriminate |].
  destruct (Qle_bool interval 0); cbn [bind]; [| discriminate].
  intros H. injection H as <-. reflexivity.
Qed.

Lemma get_decimal_places_raises_only (self : ScalePrecisionCalculator) (position : Q)
    (e : exn) :
  get_decimal_places self position = Raises e -> e = ValueError.
Proof.
  unfold get_decimal_places.
  destruct (Qltb position (beginscale self) || Qltb (endscale self) position);
    [discriminate |].
  destruct (_find_active_subsection self position) as [s |]; [| discriminate].
  destruct (_get_smallest_interval s) as [v |]; [| discriminate].
  apply interval_to_decimal_places_raises_only.
Qed.

(** X10: [get_decimal_places] raises exactly when the position is in bounds
    and the finest interval of its active sub-range is at most 0 (the error
    is then [ValueError]); in every other case it returns a value in
    [1, 5]. *)
Theorem get_decimal_places_outcome (self : ScalePrecisionCalculator) (position : Q) :
  (get_decimal_places self position = Raises ValueError <->
   beginscale self <= position /\ position <= endscale self /\
   exists s v,
     _find_active_subsection self position = Some s /\
     _get_smallest_interval s = Some v /\
     v <= 0) /\
  ((exists n : Z,
       get_decimal_places self position = Returns n /\ (1 <= n <= 5)%Z) \/
   get_decimal_places self position = Raises ValueError).
Proof.
  split.
  - unfold get_decimal_places.
    destruct (Qltb position (beginscale self) || Qltb (endscale self) position) eqn:Eb.
    { split; [discriminate |]. intros (Hlo & Hhi & _).
      assert (Hf : Qltb position (beginscale self) || Qltb (endscale self) position = false)
        by (apply in_bounds_iff; split; assumption).
      congruence. }
    apply in_bounds_iff in Eb. destruct Eb as [Hlo Hhi].
    destruct (_find_active_subsection self position) as [s |].
    2: { split; [discriminate |]. intros (_ & _ & s & v & H & _). discriminate H. }
    destruct (_get_smallest_interval s) as [v |] eqn:Ev.
    2: { split; [discriminate |]. intros (_ & _ & s' & v & H & H' & _).
         injection H as <-. congruence. }
    rewrite interval_to_decimal_places_raises_iff. split.
    + intros Hv. split; [exact Hlo |]. split; [exact Hhi |]. exists s, v. auto.
    + intros (_ & _ & s' & v' & H & H' & Hv). injection H as <-.
      assert (v' = v) by congruence. subst v'. exact Hv.
  - destruct (get_decimal_places self position) as [n | e] eqn:E.
    + left. exists n. split; [reflexivity |].
      exact (get_decimal_places_range self position n E).
    + right. rewrite (get_decimal_places_raises_only self position e E). reflexivity.
Qed.

(** X11: when the end of the scale lies before its start, every position is
    out of bounds and gets the default 2. *)
Theorem get_decimal_places_inverted_bounds (self : ScalePrecisionCalculator) :
  endscale self < beginscale self ->
  forall position : Q, get_decimal_places self position = Returns 2%Z.
Proof.
  intros Hinv position. unfold get_decimal_places.
  destruct (Qltb position (beginscale self) || Qltb (endscale self) position) eqn:Eb;
    [reflexivity |].
  apply in_bounds_iff in Eb. destruct Eb as [Hlo Hhi].
  exfalso. apply (Qlt_not_le _ _ Hinv). eapply Qle_trans; eassumption.
Qed.

Lemma get_decimal_places_inverted_bounds_witness :
  endscale (__init__ (ScaleDefinition (sd_subsections c_scale_definition) 10 1 None))
  < beginscale (__init__ (ScaleDefinition (sd_subsections c_scale_definition) 10 1 None)) /\
  get_decimal_places
    (__init__ (ScaleDefinition (sd_subsections c_scale_definition) 10 1 None)) 5
  = Returns 2%Z.
Proof.
  assert (H : endscale (__init__ (ScaleDefinition (sd_subsections c_scale_definition) 10 1 None))
              < beginscale (__init__ (ScaleDefinition (sd_subsections c_scale_definition) 10 1 None)))
    by reflexivity.
  split; [exact H |].
  exact (get_decimal_places_inverted_bounds _ H 5).
Defined.

(** X12: a configuration without sub-ranges answers 2 at every position. *)
Theorem get_decimal_places_no_subsections (definition : scale_definition) (position : Q) :
  get_decimal_places (__init__ (with_subsections definition [])) position
  = Returns 2%Z.
Proof.
  unfold get_decimal_places, _find_active_subsection.
  cbn [__init__ with_subsections sd_subsections subsections sort_by_beginsub
       fold_right find_active_loop].
  destruct (_ || _); reflexivity.
Qed.

(** ** Ties and sub-ranges beyond the scale *)

Lemma last_filter_split {A : Type} (f : A -> bool) (l : list A) (s : A) :
  hd_error (rev (filter f l)) = Some s ->
  exists pre post,
    l = pre ++ s :: post /\ f s = true /\ Forall (fun t => f t = false) post.
Proof.
  induction l as [| a l IH] using rev_ind; [discriminate |].
  rewrite filter_app. cbn [filter]. destruct (f a) eqn:Ea.
  - rewrite rev_app_distr. cbn [rev app hd_error]. intros H. injection H as <-.
    exists l, []. repeat split; [exact Ea | constructor].
  - rewrite app_nil_r. intros H.
    destruct (IH H) as (pre & post & Hl & Hs & Hpost).
    exists pre, (post ++ [a]). subst l. rewrite <- app_assoc. repeat split.
    + exact Hs.
    + apply Forall_app. split; [exact Hpost | repeat constructor; exact Ea].
Qed.

(** X13: among the entries that start at the same value as the active
    sub-range, the active one is the one listed last in the input. *)
Theorem find_active_subsection_tie (definition : scale_definition) (position : Q)
    (s : subsection) :
  _find_active_subsection (__init__ definition) position = Some s ->
  exists pre post,
    sd_subsections definition = pre ++ s :: post /\
    Forall (fun t => ~ beginsub t == beginsub s) post.
Proof.
  unfold _find_active_subsection. cbn [__init__ subsections].
  rewrite find_active_loop_sorted by apply sort_by_beginsub_sorted.
  destruct (last_qualifying position (sort_by_beginsub (sd_subsections definition)))
    as [s' |] eqn:E; [| discriminate].
  intros H. injection H as ->. unfold last_qualifying in E.
  destruct (last_filter_split _ _ _ E) as (pre & post & Hl & Hs & Hpost).
  apply Qle_bool_iff in Hs.
  set (g := fun t : subsection => Qeq_bool (beginsub t) (beginsub s)).
  assert (Hg : hd_error (rev (filter g (sd_subsections definition))) = Some s).
  { unfold g. rewrite <- sort_by_beginsub_stable. fold g. rewrite Hl.
    rewrite filter_app. cbn [filter].
    assert (Hgs : g s = true) by (apply Qeq_bool_iff; reflexivity).
    rewrite Hgs.
    assert (Hnil : filter g post = []).
    { clear - Hpost Hs. induction Hpost as [| t post Ht _ IH]; [reflexivity |].
      cbn [filter]. rewrite IH. 
      destruct (g t) eqn:Egt; [| reflexivity].
      apply Qeq_bool_iff in Egt. apply Qle_bool_false in Ht.
      exfalso. apply (Qlt_not_le _ _ Ht). rewrite Egt. exact Hs. }
    rewrite Hnil, rev_app_distr. reflexivity. }
  destruct (last_filter_split _ _ _ Hg) as (pre' & post' & Hl' & _ & Hpost').
  exists pre', post'. split; [exact Hl' |].
  eapply Forall_impl; [| exact Hpost'].
  intros t Ht Heq. apply Qeq_bool_iff in Heq. unfold g in Ht. congruence.
Qed.

Lemma find_active_subsection_tie_witness :
  let a := sub 1 (Some 1) (Some 0.5) (Some 0.1) (Some 0.05) in
  let b := sub 1 (Some 10) (Some 5) (Some 1) (Some 0.5) in
  _find_active_subsection (__init__ (ScaleDefinition [a; b] 1 10 None)) 5 = Some b /\
  exists pre post,
    sd_subsections (ScaleDefinition [a; b] 1 10 None) = pre ++ b :: post /\
    Forall (fun t => ~ beginsub t == beginsub b) post.
Proof.
  cbv zeta.
  assert (H : _find_active_subsection
                (__init__ (ScaleDefinition
                             [sub 1 (Some 1) (Some 0.5) (Some 0.1) (Some 0.05);
                              sub 1 (Some 10) (Some 5) (Some 1) (Some 0.5)] 1 10 None)) 5
              = Some (sub 1 (Some 10) (Some 5) (Some 1) (Some 0.5))) by reflexivity.
  split; [exact H |].
  exact (find_active_subsection_tie _ 5 _ H).
Defined.

Lemma filter_insert_by_beginsub (f : subsection -> bool) (s : subsection)
    (l : list subsection) :
  StronglySorted le_beginsub l ->
  filter f (insert_by_beginsub s l)
  = if f s then insert_by_beginsub s (filter f l) else filter f l.
Proof.
  induction 1 as [| t l Hs IH Ht]; cbn [insert_by_beginsub filter].
  - destruct (f s); reflexivity.
  - destruct (Qle_bool (beginsub s) (beginsub t)) eqn:E.
    + cbn [filter]. destruct (f s) eqn:Efs; [| reflexivity].
      destruct (f t) eqn:Eft.
      * cbn [insert_by_beginsub]. rewrite E. reflexivity.
      * symmetry. apply insert_by_beginsub_head.
        apply Qle_bool_iff in E.
        apply Forall_forall. intros u Hu. apply filter_In in Hu.
        destruct Hu as [Hu _]. rewrite Forall_forall in Ht.
        unfold le_beginsub in *. eapply Qle_trans; [exact E | apply Ht; exact Hu].
    + cbn [filter]. rewrite IH. destruct (f s), (f t); try reflexivity.
      cbn [insert_by_beginsub]. rewrite E. reflexivity.
Qed.

Lemma sort_by_beginsub_filter (f : subsection -> bool) (l : list subsection) :
  sort_by_beginsub (filter f l) = filter f (sort_by_beginsub l).
Proof.
  induction l as [| a l IH]; [reflexivity |].
  cbn [filter sort_by_beginsub fold_right]. fold (sort_by_beginsub l).
  rewrite filter_insert_by_beginsub by apply sort_by_beginsub_sorted.
  destruct (f a); [| exact IH].
  cbn [sort_by_beginsub fold_right]. fold (sort_by_beginsub (filter f l)).
  rewrite IH. reflexivity.
Qed.

Lemma filter_filter_implied {A : Type} (f g : A -> bool) (l : list A) :
  (forall a, f a = true -> g a = true) ->
  filter f (filter g l) = filter f l.
Proof.
  intros H. induction l as [| a l IH]; [reflexivity |].
  cbn [filter]. destruct (g a) eqn:Eg.
  - cbn [filter]. rewrite IH. reflexivity.
  - destruct (f a) eqn:Ef; [| exact IH].
    apply H in Ef. congruence.
Qed.

(** X14: sub-ranges that start beyond the end of the scale are never used:
    dropping them from the configuration changes no result. *)
Theorem get_decimal_places_within_scale (definition : scale_definition) (position : Q) :
  get_decimal_places (__init__ (within_scale definition)) position
  = get_decimal_places (__init__ definition) position.
Proof.
  unfold get_decimal_places.
  change (beginscale (__init__ (within_scale definition)))
    with (beginscale (__init__ definition)).
  change (endscale (__init__ (within_scale definition)))
    with (endscale (__init__ definition)).
  destruct (Qltb position (beginscale (__init__ definition))
            || Qltb (endscale (__init__ definition)) position) eqn:Eb;
    [reflexivity |].
  apply in_bounds_iff in Eb. destruct Eb as [_ Hhi].
  cbn [__init__ endscale] in Hhi.
  assert (E : _find_active_subsection (__init__ (within_scale definition)) position
              = _find_active_subsection (__init__ definition) position).
  { unfold _find_active_subsection, within_scale.
    cbn [__init__ with_subsections sd_subsections subsections].
    rewrite !find_active_loop_sorted by apply sort_by_beginsub_sorted.
    unfold last_qualifying.
    rewrite sort_by_beginsub_filter, filter_filter_implied; [reflexivity |].
    intros a Ha. apply Qle_bool_iff in Ha. apply Qle_bool_iff.
    eapply Qle_trans; eassumption. }
  rewrite E. reflexivity.
Qed.

Example c_scale_within_scale :
  map beginsub (sd_subsections (within_scale c_scale_definition)) = [1; 2; 4; 10].
Proof. reflexivity. Qed.

(** ** More on the formatted value *)

(** X15: a position outside the scale is still formatted, with the default
    of two fractional digits: a finite position as the text of its binary64
    value, -0.0 as "-0.00", an infinity by its name.  Only a finite position
    of magnitude [2 ^ 1024 - 2 ^ 970] or more raises, and [nan] is never
    outside the scale. *)
Theorem get_formatted_value_out_of_bounds (self : ScalePrecisionCalculator)
    (position : number) :
  Position.lt position (beginscale self) = true \/
  Position.gt position (endscale self) = true ->
  get_formatted_value self position = format_position position 2 /\
  match position with
  | Finite q =>
      if Qle_bool (2 ^ 1024 - 2 ^ 970) (Qabs q)
      then format_position position 2 = Raises OverflowError
      else
        format_position position 2 = Returns (format_fixed (binary64 q) 2) /\
        option_map String.length (after_point (format_fixed (binary64 q) 2)) = Some 2%nat
  | NegativeZero => format_position position 2 = Returns "-0.00"%string
  | Infinity negative =>
      format_position position 2 = Returns (if negative then "-inf" else "inf")%string
  | NaN => False
  end.
Proof.
  intros Hout. split.
  - unfold get_formatted_value, Position.get_decimal_places.
    assert (E : Position.lt position (beginscale self)
                || Position.gt position (endscale self) = true).
    { apply orb_true_iff. exact Hout. }
    rewrite E. reflexivity.
  - destruct position as [q | | negative |].
    + rewrite format_position_finite.
      destruct (Qle_bool (2 ^ 1024 - 2 ^ 970) (Qabs q)); [reflexivity |].
      split; [reflexivity | apply format_fixed_fraction; lia].
    + reflexivity.
    + reflexivity.
    + destruct Hout as [H | H]; discriminate H.
Qed.

Lemma get_formatted_value_out_of_bounds_witness :
  (Position.lt (Finite 50) (beginscale create_c_scale_calculator) = true \/
   Position.gt (Finite 50) (endscale create_c_scale_calculator) = true) /\
  get_formatted_value create_c_scale_calculator (Finite 50) = format_position (Finite 50) 2 /\
  format_position (Finite 50) 2 = Returns "50.00"%string.
Proof.
  assert (H : Position.lt (Finite 50) (beginscale create_c_scale_calculator) = true \/
              Position.gt (Finite 50) (endscale create_c_scale_calculator) = true)
    by (right; reflexivity).
  split; [exact H |].
  split; [| vm_compute; reflexivity].
  exact (proj1 (get_formatted_value_out_of_bounds create_c_scale_calculator (Finite 50) H)).
Defined.

(** X16: a text that [get_formatted_value] returns is the name of the
    position when the position is an infinity or [nan], and otherwise has a
    point followed by at least one and at most five characters. *)
Theorem get_formatted_value_fraction (self : ScalePrecisionCalculator)
    (position : number) (text : string) :
  get_formatted_value self position = Returns text ->
  match position with
  | Finite _ | NegativeZero =>
      exists fraction : string,
        after_point text = Some fraction /\
        (1 <= String.length fraction <= 5)%nat
  | Infinity negative => text = (if negative then "-inf" else "inf")%string
  | NaN => text = "nan"%string
  end.
Proof.
  unfold get_formatted_value.
  destruct (Position.get_decimal_places self position) as [n | e] eqn:E;
    cbn [bind]; [| discriminate].
  apply position_get_decimal_places_range in E.
  assert (Hfrac : forall x : Q,
             exists fraction : string,
               after_point (format_fixed x (Z.to_nat n)) = Some fraction /\
               (1 <= String.length fraction <= 5)%nat).
  { intros x.
    pose proof (format_fixed_fraction x (Z.to_nat n) ltac:(lia)) as Hf.
    destruct (after_point (format_fixed x (Z.to_nat n))) as [fraction |];
      [| discriminate Hf].
    exists fraction. split; [reflexivity |].
    cbn [option_map] in Hf. injection Hf as Hf. lia. }
  destruct position as [q | | negative |].
  - rewrite format_position_finite.
    destruct (Qle_bool (2 ^ 1024 - 2 ^ 970) (Qabs q)); [discriminate |].
    intros H. injection H as <-. apply Hfrac.
  - cbn [format_position]. intros H. injection H as <-.
    exact (Hfrac 0).
  - cbn [format_position]. intros H. injection H as <-. reflexivity.
  - cbn [format_position]. intros H. injection H as <-. reflexivity.
Qed.

Lemma get_formatted_value_fraction_witness :
  get_formatted_value create_k_scale_calculator (Finite 7.5) = Returns "7.50"%string /\
  exists fraction : string,
    after_point "7.50" = Some fraction /\
    (1 <= String.length fraction <= 5)%nat.
Proof.
  assert (H : get_formatted_value create_k_scale_calculator (Finite 7.5)
              = Returns "7.50"%string) by (vm_compute; reflexivity).
  split; [exact H |].
  exact (get_formatted_value_fraction create_k_scale_calculator (Finite 7.5) "7.50" H).
Defined.

(** ** The sample scales at every position *)

(** X17: on the C scale every position in [1, 10) gets 3 decimal places and
    every other position gets 2 (the end 10 itself from its own sub-range,
    the positions outside the scale by default). *)
Theorem c_scale_every_position (position : Q) :
  get_decimal_places create_c_scale_calculator position
  = Returns (if Qle_bool 1 position && Qltb position 10 then 3 else 2)%Z.
Proof.
  unfold get_decimal_places, _find_active_subsection.
  change (subsections create_c_scale_calculator) with (sd_subsections c_scale_definition).
  change (beginscale create_c_scale_calculator) with 1.
  change (endscale create_c_scale_calculator) with 10.
  cbn [find_active_loop c_scale_definition sd_subsections sub beginsub].
  unfold Qgeb, Qltb.
  cmp_cases.
Qed.


(** X19: on the K scale a position gets 3 decimal places in [1, 3), 2 in
    [3, 30), 1 in [30, 1000], and the default 2 outside the scale. *)
Theorem k_scale_every_position (position : Q) :
  get_decimal_places create_k_scale_calculator position
  = Returns (if Qltb position 1 || Qltb 1000 position then 2
             else if Qltb position 3 then 3
             else if Qltb position 30 then 2
             else 1)%Z.
Proof.
  unfold get_decimal_places, _find_active_subsection.
  change (subsections create_k_scale_calculator)
    with (sd_subsections k_scale_definition).
  change (beginscale create_k_scale_calculator) with 1.
  change (endscale create_k_scale_calculator) with 1000.
  cbn [find_active_loop k_scale_definition sd_subsections sub beginsub].
  unfold Qgeb, Qltb.
  cmp_cases.
Qed.
